(** * The request pipeline of the Discogs client (package [discogs])

    A shallow embedding of [discogs.go] and of the [Release] call site:
    route matching, authentication headers, the adaptive rate limiter, the
    request pipeline ([request] and [Do]) and the call-site error
    classification, followed by the properties the specification states
    about them.

    Conventions.
    - Go strings are byte strings: [string] (a list of [ascii]).
    - Go [int] is taken at 64 bits ([intSize]); integers are [Z], and every
      conversion or parse that can leave the range is written out.
    - A Go [error] result is [option error] ([None] is [nil]); a pair
      [(T, error)] of a library call is [T + error].
    - Functions of imported packages that the pipeline only calls
      (URL parsing, JSON coding, the transport, the limiter's [Wait]) are
      the fields of a [Runtime]: every theorem holds for any behaviour of
      them.
    - A method runs on its own: the mutex that serialises the accesses to
      the limiter is not part of the model. *)

From Stdlib Require Import ZArith Ascii String.
From stdpp Require Import gmap strings pretty list fin_maps.

Local Open Scope string_scope.
Local Open Scope Z_scope.

(** ** Package [strings] *)

(** [strings.Split(s, "/")]: the substrings between the separator byte.
    The result always has one more element than [s] has separators, so the
    split of the empty string is the one-element list of the empty string. *)
Fixpoint strings_Split (s : string) (sep : ascii) : list string :=
  match s with
  | EmptyString => [EmptyString]
  | String c rest =>
      if Ascii.eqb c sep then EmptyString :: strings_Split rest sep
      else match strings_Split rest sep with
           | part :: parts => String c part :: parts
           | [] => [String c EmptyString]
           end
  end.

(** [strings.HasPrefix(s, prefix)]:
    [len(s) >= len(prefix) && s[:len(prefix)] == prefix]. *)
Definition strings_HasPrefix (s prefix : string) : bool :=
  (String.length prefix <=? String.length s)%nat
  && String.eqb (substring 0 (String.length prefix) s) prefix.

(** [strings.HasSuffix(s, suffix)]:
    [len(s) >= len(suffix) && s[len(s)-len(suffix):] == suffix]. *)
Definition strings_HasSuffix (s suffix : string) : bool :=
  (String.length suffix <=? String.length s)%nat
  && String.eqb
       (substring (String.length s - String.length suffix)
                  (String.length suffix) s)
       suffix.

(** ** Authentication classes and errors *)

(** [type AuthType string]: any string is a value of the type. *)
Definition AuthType : Type := string.

Definition AuthTypeUnknown : AuthType := "unknown".
Definition AuthTypeNone : AuthType := "none".
Definition AuthTypeKeySecret : AuthType := "key-secret".
Definition AuthTypeOAuth : AuthType := "oauth".
Definition AuthTypePAT : AuthType := "personal-access-token".

Record HTTPError : Type := mkHTTPError {
  StatusCode : Z;
  Message : string
}.

(** The dynamic types an [error] value of the package can have.
    [ErrReleaseNotFound] embeds the [HTTPError] it was derived from;
    [Errorf] is [fmt.Errorf(format, cause)] with a [%w] verb; [ErrLib] is an
    error value created by an imported package, named by its text. *)
Inductive error : Type :=
  | ErrHTTP (e : HTTPError)
  | ErrMissingCredentials (RequiredAuthType : AuthType) (Endpoint : string)
  | ErrMatchNotFound (Endpoint : string)
  | ErrReleaseNotFound (ReleaseID : Z) (e : HTTPError)
  | Errorf (format : string) (cause : error)
  | ErrLib (text : string).

(** The type assertion of [err] to a pointer to [HTTPError]. *)
Definition as_HTTPError (err : error) : option HTTPError :=
  match err with
  | ErrHTTP e => Some e
  | _ => None
  end.

(** ** Route matcher *)

Definition EndpointAuthMap : gmap string AuthType :=
  <["/test" := AuthTypeNone]>
    (<["/releases/{release_id}" := AuthTypeNone]>
       (<["/database/search" := AuthTypeKeySecret]> ∅)).

(** The test of the loop body of [isMatch]: the part is a placeholder. *)
Definition isPlaceholder (part : string) : bool :=
  strings_HasPrefix part "{" && strings_HasSuffix part "}".

(** The [for i, part := range routeParts] loop of [isMatch], from index [i]
    on. [endpointParts[i]] out of range is a run-time panic: [None]. *)
Fixpoint isMatch_loop (routeParts : list string) (i : nat)
    (endpointParts : list string) : option bool :=
  match routeParts with
  | [] => Some true
  | part :: rest =>
      if isPlaceholder part then isMatch_loop rest (S i) endpointParts
      else match endpointParts !! i with
           | None => None
           | Some e =>
               if negb (String.eqb part e) then Some false
               else isMatch_loop rest (S i) endpointParts
           end
  end.

(** [isMatch(route, endpoint)]. The loop runs only on lists of the same
    length, where no index is out of range ([isMatch_loop_in_range]); the
    last branch is therefore never taken. *)
Definition isMatch (route endpoint : string) : bool :=
  let routeParts := strings_Split route "/" in
  let endpointParts := strings_Split endpoint "/" in
  if negb (length routeParts =? length endpointParts)%nat then false
  else match isMatch_loop routeParts 0 endpointParts with
       | Some b => b
       | None => false
       end.

(** [matchRoute] ranges over a Go map, whose iteration order is not
    specified. [matchRoute_range] is the loop over the entries in the order
    one run of [range] yields them. *)
Fixpoint matchRoute_range (endpoint : string)
    (entries : list (string * AuthType)) : AuthType * option error :=
  match entries with
  | [] => (AuthTypeUnknown, Some (ErrMatchNotFound endpoint))
  | (route, authType) :: rest =>
      if isMatch route endpoint then (authType, None)
      else matchRoute_range endpoint rest
  end.

(** An iteration order of a map: any arrangement of its entries. *)
Definition range_order (authMap : gmap string AuthType)
    (entries : list (string * AuthType)) : Prop :=
  entries ≡ₚ map_to_list authMap.

(** [matchRoute(endpoint, authMap)] can return [r]: some iteration order
    makes the loop return it. *)
Definition matchRoute (endpoint : string) (authMap : gmap string AuthType)
    (r : AuthType * option error) : Prop :=
  ∃ entries, range_order authMap entries ∧ matchRoute_range endpoint entries = r.

(** ** Packages [time], [strconv] and [rate] *)

(** [time.Minute], a [time.Duration]: nanoseconds in an [int64]. *)
Definition time_Minute : Z := 60000000000.

(** The width of [int] ([strconv.IntSize]) on the 64-bit targets. *)
Definition intSize : Z := 64.

(** The value of a [w]-bit two's-complement integer holding [x]. *)
Definition wrap (w x : Z) : Z := (x + 2 ^ (w - 1)) mod 2 ^ w - 2 ^ (w - 1).

(** The conversion [int(x)] of an [int64]. *)
Definition int_of_int64 (x : Z) : Z := wrap intSize x.

Definition in_int (x : Z) : bool :=
  (- 2 ^ (intSize - 1) <=? x) && (x <=? 2 ^ (intSize - 1) - 1).

Definition digit_of (ch : ascii) : option Z :=
  let n := Z.of_N (N_of_ascii ch) in
  if (48 <=? n) && (n <=? 57) then Some (n - 48) else None.

Fixpoint parse_digits (s : string) (n : Z) : option Z :=
  match s with
  | EmptyString => Some n
  | String ch rest =>
      match digit_of ch with
      | Some d => parse_digits rest (n * 10 + d)
      | None => None
      end
  end.

(** [strconv.Atoi(s)]: an optional sign, then one or more decimal digits,
    and a value that fits [int]; anything else is an error. *)
Definition strconv_Atoi (s : string) : Z + error :=
  match s with
  | EmptyString => inr (ErrLib "strconv.Atoi: invalid syntax")
  | String c rest =>
      let signed := Ascii.eqb c "-" || Ascii.eqb c "+" in
      let digits := if signed then rest else s in
      match digits with
      | EmptyString => inr (ErrLib "strconv.Atoi: invalid syntax")
      | String _ _ =>
          match parse_digits digits 0 with
          | None => inr (ErrLib "strconv.Atoi: invalid syntax")
          | Some n =>
              let v := if Ascii.eqb c "-" then - n else n in
              if in_int v then inl v
              else inr (ErrLib "strconv.Atoi: value out of range")
          end
      end
  end.

(** [strconv.FormatInt(i, 10)]. *)
Definition strconv_FormatInt (i : Z) : string := pretty i.

Module rate.

(** [rate.Limit] is a [float64] number of events per second. The only
    limits this package creates are results of [Every]: [Inf], or the
    limit of one event per [interval] nanoseconds, [interval] positive. *)
Inductive Limit : Type :=
  | Inf
  | OnePer (interval : Z).

(** [rate.Every(interval)]. *)
Definition Every (interval : Z) : Limit :=
  if interval <=? 0 then Inf else OnePer interval.

(** The configuration of a [rate.Limiter]. Its token count and clock are
    not part of the model: [Wait] is a library call of the pipeline. *)
Record Limiter : Type := NewLimiter {
  limit : Limit;
  burst : Z
}.

Definition SetLimit (newLimit : Limit) (lim : Limiter) : Limiter :=
  {| limit := newLimit; burst := burst lim |}.

Definition SetBurst (newBurst : Z) (lim : Limiter) : Limiter :=
  {| limit := limit lim; burst := newBurst |}.

End rate.

(** ** Packages [url] and [http] *)

Module url.

Record URL : Type := mkURL {
  Scheme : string;
  Host : string;
  Path : string;
  RawQuery : string
}.

(** [url.Values], a [map[string][]string]. *)
Definition Values : Type := gmap string (list string).

Definition set_RawQuery (q : string) (u : URL) : URL :=
  {| Scheme := Scheme u; Host := Host u; Path := Path u; RawQuery := q |}.

End url.

Module http.

(** [http.Header], a [map[string][]string] whose keys are in canonical
    form. *)
Definition Header : Type := gmap string (list string).

(** [h.Get(key)] for a [key] that is in canonical form already, as the
    header names of this package are. *)
Definition Header_Get (h : Header) (key : string) : string :=
  match h !! key with
  | Some (v :: _) => v
  | _ => EmptyString
  end.

(** [h.Set(key, value)] for a [key] in canonical form. *)
Definition Header_Set (h : Header) (key value : string) : Header :=
  <[key := [value]]> h.

(** A response body: the bytes [io.ReadAll] reads from it, and the error
    that ends the reading, if any. *)
Record ReadCloser : Type := mkBody {
  content : string;
  failure : option error
}.

Record Response : Type := mkResponse {
  StatusCode : Z;
  ResponseHeader : Header;
  Body : ReadCloser
}.

Record Request : Type := mkRequest {
  Method : string;
  URL : url.URL;
  RequestHeader : Header;
  RequestBody : option string
}.

Definition set_Header (h : Header) (req : Request) : Request :=
  {| Method := Method req; URL := URL req; RequestHeader := h;
     RequestBody := RequestBody req |}.

Definition StatusNotFound : Z := 404.
Definition MethodGet : string := "GET".
Definition MethodPost : string := "POST".
Definition MethodPut : string := "PUT".
Definition MethodDelete : string := "DELETE".

End http.

(** [io.ReadAll(body)]. *)
Definition io_ReadAll (body : http.ReadCloser) : string * option error :=
  (http.content body, http.failure body).

(** ** The client *)

Definition BaseURL : string := "https://api.discogs.com".
Definition DefaultAppName : string := "DiscogsGo/0.1".
Definition AuthHeader : string := "Authorization".
Definition UserAgentHeader : string := "User-Agent".
Definition RateLimitHeader : string := "X-Discogs-Ratelimit".
Definition RateLimitUnauth : Z := 25.
Definition RateLimitAuth : Z := 60.

Record DiscogsConfig : Type := mkConfig {
  AppName : string;
  ConsumerKey : option string;
  ConsumerSecret : option string;
  AccessToken : option string;
  MaxRequests : Z
}.

Record DiscogsClient : Type := mkClient {
  Host : string;
  Config : DiscogsConfig;
  rateLimiter : rate.Limiter
}.

Definition set_AppName (a : string) (c : DiscogsConfig) : DiscogsConfig :=
  {| AppName := a; ConsumerKey := ConsumerKey c;
     ConsumerSecret := ConsumerSecret c; AccessToken := AccessToken c;
     MaxRequests := MaxRequests c |}.

Definition set_MaxRequests (n : Z) (c : DiscogsConfig) : DiscogsConfig :=
  {| AppName := AppName c; ConsumerKey := ConsumerKey c;
     ConsumerSecret := ConsumerSecret c; AccessToken := AccessToken c;
     MaxRequests := n |}.

Definition set_Config (c : DiscogsConfig) (dc : DiscogsClient) : DiscogsClient :=
  {| Host := Host dc; Config := c; rateLimiter := rateLimiter dc |}.

Definition set_rateLimiter (l : rate.Limiter) (dc : DiscogsClient) : DiscogsClient :=
  {| Host := Host dc; Config := Config dc; rateLimiter := l |}.

(** The limit the package derives from a number of requests per minute,
    [rate.Every(time.Minute / time.Duration(n))]; the division is Go's,
    truncated towards zero, and is never reached with [n = 0]. *)
Definition perMinute (n : Z) : rate.Limit := rate.Every (time_Minute ÷ n).

Definition NewDiscogsClient (config : DiscogsConfig) : DiscogsClient :=
  let config :=
    if String.eqb (AppName config) EmptyString then set_AppName DefaultAppName config
    else config in
  let limiter :=
    if 0 <? MaxRequests config then
      rate.NewLimiter (perMinute (MaxRequests config)) (MaxRequests config)
    else
      let requestsPerMinute :=
        match ConsumerKey config, ConsumerSecret config with
        | Some _, Some _ => RateLimitAuth
        | _, _ => RateLimitUnauth
        end in
      rate.NewLimiter (perMinute requestsPerMinute) requestsPerMinute in
  {| Host := BaseURL; Config := config; rateLimiter := limiter |}.

Definition SetMaxRequests (requestsPerMinute : Z) (dc : DiscogsClient)
    : DiscogsClient :=
  if 0 <? requestsPerMinute then
    let dc := set_Config (set_MaxRequests requestsPerMinute (Config dc)) dc in
    let limit := perMinute requestsPerMinute in
    let dc := set_rateLimiter (rate.SetLimit limit (rateLimiter dc)) dc in
    set_rateLimiter (rate.SetBurst requestsPerMinute (rateLimiter dc)) dc
  else dc.

Definition Limit (dc : DiscogsClient) : rate.Limit := rate.limit (rateLimiter dc).

(** The local [effectiveLimit] of [updateRateLimitFromHeader]. *)
Definition effectiveLimit (dc : DiscogsClient) (rateLimit : Z) : Z :=
  if 0 <? MaxRequests (Config dc) then Z.min (MaxRequests (Config dc)) rateLimit
  else rateLimit.

Definition updateRateLimitFromHeader (dc : DiscogsClient) (res : http.Response)
    : DiscogsClient :=
  let rateLimitHeader := http.Header_Get (http.ResponseHeader res) RateLimitHeader in
  if negb (String.eqb rateLimitHeader EmptyString) then
    match strconv_Atoi rateLimitHeader with
    | inl rateLimit =>
        let effectiveLimit := effectiveLimit dc rateLimit in
        if negb (effectiveLimit =? 0) then
          let dc :=
            set_rateLimiter
              (rate.SetLimit (perMinute effectiveLimit) (rateLimiter dc)) dc in
          set_rateLimiter (rate.SetBurst effectiveLimit (rateLimiter dc)) dc
        else dc
    | inr _ => dc
    end
  else dc.

(** ** Auth header builder *)

Definition addAuthHeaders (dc : DiscogsClient) (req : http.Request)
    (authType : AuthType) : http.Request * option error :=
  if String.eqb authType AuthTypeNone then (req, None)
  else if String.eqb authType AuthTypeKeySecret then
    match ConsumerKey (Config dc), ConsumerSecret (Config dc) with
    | Some key, Some secret =>
        (http.set_Header
           (http.Header_Set (http.RequestHeader req) AuthHeader
              ("Discogs key=" ++ key ++ ", secret=" ++ secret)) req,
         None)
    | _, _ =>
        (req, Some (ErrMissingCredentials authType (url.Path (http.URL req))))
    end
  else if String.eqb authType AuthTypeOAuth || String.eqb authType AuthTypePAT then
    match AccessToken (Config dc) with
    | Some token =>
        (http.set_Header
           (http.Header_Set (http.RequestHeader req) AuthHeader ("Bearer " ++ token))
           req,
         None)
    | None =>
        (req, Some (ErrMissingCredentials authType (url.Path (http.URL req))))
    end
  else (req, None).

(** ** The world around a call

    What the pipeline calls but the package does not define: functions of
    imported packages, and the order in which [range] yields the entries of
    a map. *)
Record Runtime : Type := mkRuntime {
  (** [context.Context] *)
  context_Context : Type;
  (** the values passed as [body interface{}] *)
  Payload : Type;
  (** the values an output slot [res interface{}] points to *)
  Slot : Type;
  (** the option structs passed to [query.Values] *)
  Options : Type;
  url_Parse : string -> url.URL + error;
  URL_String : url.URL -> string;
  Values_Encode : url.Values -> string;
  query_Values : option Options -> url.Values + error;
  json_Marshal : Payload -> string + error;
  json_Unmarshal : string -> Slot -> Slot * option error;
  http_NewRequestWithContext :
    context_Context -> string -> string -> option string -> http.Request + error;
  CanonicalMIMEHeaderKey : string -> string;
  (** [lim.Wait(ctx)] *)
  Limiter_Wait : rate.Limiter -> context_Context -> option error;
  (** [dc.Client.Do(req)], the transport exchange *)
  Client_Do : http.Request -> http.Response + error;
  range_headers : gmap string string -> list (string * string);
  range_routes : gmap string AuthType -> list (string * AuthType);
  (** the zero value of [ReleaseResponse] *)
  ReleaseResponse_zero : Slot
}.

(** The calls that leave the package during a request, in order. *)
Inductive Event : Type :=
  | EvWait
  | EvClientDo (req : http.Request)
  | EvUnmarshal (data : string).

(** The state a call runs in: the client it is a method of, and the calls
    made so far. *)
Record World : Type := mkWorld {
  client : DiscogsClient;
  trace : list Event
}.

Definition M (A : Type) : Type := World -> A * World.

#[global] Instance M_ret : MRet M := λ A (a : A) (w : World), (a, w).

#[global] Instance M_bind : MBind M :=
  λ A B (f : A -> M B) (c : M A) (w : World), let '(a, w') := c w in f a w'.

Definition get_client : M DiscogsClient := λ w, (client w, w).

Definition modify_client (f : DiscogsClient -> DiscogsClient) : M unit :=
  λ w, (tt, {| client := f (client w); trace := trace w |}).

Definition emit (e : Event) : M unit :=
  λ w, (tt, {| client := client w; trace := trace w ++ [e] |}).

(** Runs the monadic steps of a pipeline function in a goal. *)
Ltac run_M :=
  unfold mbind, M_bind, mret, M_ret, get_client, emit, modify_client; simpl.

Section Pipeline.

Variable R : Runtime.

Definition Do (ctx : context_Context R) (req : http.Request)
    (res : option (Slot R)) : M (option error * option (Slot R)) :=
  dc ← get_client;
  _ ← emit EvWait;
  match Limiter_Wait R (rateLimiter dc) ctx with
  | Some err => mret (Some err, res)
  | None =>
      _ ← emit (EvClientDo req);
      match Client_Do R req with
      | inr err => mret (Some (Errorf "request failed: %w" err), res)
      | inl response =>
          _ ← modify_client (λ dc, updateRateLimitFromHeader dc response);
          let '(responseBody, err) := io_ReadAll (http.Body response) in
          match err with
          | Some err =>
              mret (Some (Errorf "failed to read response body: %w" err), res)
          | None =>
              if (http.StatusCode response <? 200)
                 || (300 <=? http.StatusCode response)
              then
                mret (Some (ErrHTTP {| StatusCode := http.StatusCode response;
                                       Message := responseBody |}), res)
              else
                match res with
                | Some slot =>
                    if (0 <? String.length responseBody)%nat then
                      _ ← emit (EvUnmarshal responseBody);
                      let '(slot', err) := json_Unmarshal R responseBody slot in
                      match err with
                      | Some err =>
                          mret (Some (Errorf "failed to unmarshal response body: %w" err),
                                Some slot')
                      | None => mret (None, Some slot')
                      end
                    else mret (None, res)
                | None => mret (None, res)
                end
          end
      end
  end.

(** The loop [for headerKey, headerValue := range headers]. *)
Definition set_headers (headers : list (string * string)) (req : http.Request)
    : http.Request :=
  fold_left
    (λ req kv,
       http.set_Header
         (http.Header_Set (http.RequestHeader req) (CanonicalMIMEHeaderKey R kv.1) kv.2)
         req)
    headers req.

Definition request (ctx : context_Context R) (method endpoint : string)
    (params : option url.Values) (headers : option (gmap string string))
    (body : option (Payload R)) (res : option (Slot R))
    : M (option error * option (Slot R)) :=
  dc ← get_client;
  match url_Parse R (Host dc +:+ endpoint) with
  | inr err => mret (Some err, res)
  | inl baseURL =>
      let params := match params with Some p => p | None => ∅ end in
      let baseURL := url.set_RawQuery (Values_Encode R params) baseURL in
      let encoded :=
        match body with
        | Some b =>
            match json_Marshal R b with
            | inl encoded => inl (Some encoded)
            | inr err => inr err
            end
        | None => inl None
        end in
      match encoded with
      | inr err => mret (Some err, res)
      | inl reqBody =>
          match http_NewRequestWithContext R ctx method
                  (URL_String R baseURL) reqBody with
          | inr err => mret (Some err, res)
          | inl req =>
              let req :=
                match headers with
                | Some hs => set_headers (range_headers R hs) req
                | None => req
                end in
              match matchRoute_range endpoint (range_routes R EndpointAuthMap) with
              | (_, Some err) => mret (Some err, res)
              | (authType, None) =>
                  let req :=
                    http.set_Header
                      (http.Header_Set (http.RequestHeader req) UserAgentHeader
                         (AppName (Config dc))) req in
                  match addAuthHeaders dc req authType with
                  | (_, Some err) => mret (Some err, res)
                  | (req, None) => Do ctx req res
                  end
              end
          end
      end
  end.

Definition Get ctx endpoint params headers res :=
  request ctx http.MethodGet endpoint params headers None res.

Definition Post ctx endpoint params headers body res :=
  request ctx http.MethodPost endpoint params headers body res.

Definition Put ctx endpoint params headers body res :=
  request ctx http.MethodPut endpoint params headers body res.

Definition Delete ctx endpoint params headers res :=
  request ctx http.MethodDelete endpoint params headers None res.

(** [Release] returns a pointer to the decoded response, or [nil]. *)
Definition Release (ctx : context_Context R) (releaseID : Z)
    (options : option (Options R)) : M (option (Slot R) * option error) :=
  let endpoint := "/releases/" +:+ strconv_FormatInt releaseID in
  let res := ReleaseResponse_zero R in
  match query_Values R options with
  | inr err => mret (None, Some err)
  | inl params =>
      '(err, res) ← Get ctx endpoint (Some params) None (Some res);
      match err with
      | Some err =>
          match as_HTTPError err with
          | Some httpErr =>
              if StatusCode httpErr =? http.StatusNotFound then
                mret (None, Some (ErrReleaseNotFound (int_of_int64 releaseID) httpErr))
              else mret (None, Some (ErrHTTP httpErr))
          | None => mret (None, Some err)
          end
      | None => mret (res, None)
      end
  end.

End Pipeline.

(** ** The specification's vocabulary *)

(** The ['/']-delimited segments of a pattern or of a path. *)
Definition segments (s : string) : list string := strings_Split s "/".

(** A segment wrapped in braces: a placeholder of a route pattern. *)
Definition brace_wrapped (part : string) : Prop :=
  ∃ mid, part = "{" +:+ mid +:+ "}".

(** The pattern and the path have the same number of segments, and every
    segment of the pattern that is not brace-wrapped is the segment of the
    path at the same position. *)
Definition segments_match (route endpoint : string) : Prop :=
  length (segments route) = length (segments endpoint)
  ∧ ∀ i part,
      segments route !! i = Some part →
      ¬ brace_wrapped part →
      segments endpoint !! i = Some part.

(** The pattern has another number of segments than the path, or a literal
    segment of it differs from the path's segment at its position. *)
Definition segments_mismatch (route endpoint : string) : Prop :=
  length (segments route) ≠ length (segments endpoint)
  ∨ ∃ i part e,
      segments route !! i = Some part ∧ ¬ brace_wrapped part
      ∧ segments endpoint !! i = Some e ∧ part ≠ e.

(** The rate-limit header of the response carries the integer [R]. *)
Definition carries (h : http.Header) (R : Z) : Prop :=
  strconv_Atoi (http.Header_Get h RateLimitHeader) = inl R.

(** The response has no rate-limit header. *)
Definition absent (h : http.Header) : Prop := h !! RateLimitHeader = None.

(** The rate-limit header of the response is not the text of an [int]. *)
Definition non_numeric (h : http.Header) : Prop :=
  ∃ err, strconv_Atoi (http.Header_Get h RateLimitHeader) = inr err.

(** A sequence of header-driven updates. *)
Definition updates (dc : DiscogsClient) (rs : list http.Response) : DiscogsClient :=
  fold_left updateRateLimitFromHeader rs dc.

(** The burst of the client's limiter, [dc.rateLimiter.Burst()]. *)
Definition Burst (dc : DiscogsClient) : Z := rate.burst (rateLimiter dc).

(** The clients a program can hold: created by [NewDiscogsClient], then
    changed by [SetMaxRequests] and by the headers of the responses. *)
Inductive reachable : DiscogsClient -> Prop :=
  | reachable_New (config : DiscogsConfig) :
      reachable (NewDiscogsClient config)
  | reachable_SetMaxRequests (dc : DiscogsClient) (requestsPerMinute : Z) :
      reachable dc -> reachable (SetMaxRequests requestsPerMinute dc)
  | reachable_update (dc : DiscogsClient) (res : http.Response) :
      reachable dc -> reachable (updateRateLimitFromHeader dc res)
  | reachable_Host (dc : DiscogsClient) (host : string) :
      reachable dc ->
      reachable {| Host := host; Config := Config dc;
                   rateLimiter := rateLimiter dc |}.

(** [strings.Join(parts, "/")]. *)
Fixpoint join_segments (parts : list string) : string :=
  match parts with
  | [] => EmptyString
  | [part] => part
  | part :: rest => part +:+ String "/" (join_segments rest)
  end.

(** The byte [c] occurs in [s]. *)
Fixpoint occurs (c : ascii) (s : string) : bool :=
  match s with
  | EmptyString => false
  | String a rest => Ascii.eqb a c || occurs c rest
  end.

(** The request the pipeline constructs for a call: the target address
    parses, the payload, if any, serialises, and the request is created. *)
Definition constructs (R : Runtime) (dc : DiscogsClient) (ctx : context_Context R)
    (method endpoint : string) (params : option url.Values)
    (body : option (Payload R)) (req : http.Request) : Prop :=
  ∃ baseURL reqBody,
    url_Parse R (Host dc +:+ endpoint) = inl baseURL
    ∧ match body with
      | Some b => ∃ encoded, json_Marshal R b = inl encoded ∧ reqBody = Some encoded
      | None => reqBody = None
      end
    ∧ http_NewRequestWithContext R ctx method
        (URL_String R
           (url.set_RawQuery
              (Values_Encode R (match params with Some p => p | None => ∅ end))
              baseURL))
        reqBody
      = inl req.

(** The values of an [int64]. *)
Definition is_int64 (x : Z) : Prop := - 2 ^ 63 <= x < 2 ^ 63.

(** ** A test server

    A runtime in the manner of the package's tests: a fixed host, a
    transport that answers every request with [answer], payloads and
    decoded values that are their JSON text, and a decoder that accepts
    the texts that start with a brace. *)
Definition testHost : string := "http://127.0.0.1:8080".

Definition test_Parse (rawURL : string) : url.URL + error :=
  if String.prefix testHost rawURL then
    let rest := substring (String.length testHost)
                  (String.length rawURL - String.length testHost) rawURL in
    inl {| url.Scheme := "http"; url.Host := "127.0.0.1:8080";
           url.Path := rest; url.RawQuery := EmptyString |}
  else inr (ErrLib "parse: unsupported URL").

Definition test_String (u : url.URL) : string :=
  url.Scheme u +:+ "://" +:+ url.Host u +:+ url.Path u.

Definition test_NewRequest (ctx : unit) (method rawURL : string)
    (body : option string) : http.Request + error :=
  match test_Parse rawURL with
  | inl u => inl {| http.Method := method; http.URL := u;
                    http.RequestHeader := ∅; http.RequestBody := body |}
  | inr err => inr err
  end.

Definition test_Unmarshal (data : string) (slot : string) : string * option error :=
  if String.prefix "{" data then (data, None)
  else (slot, Some (ErrLib "invalid character looking for beginning of value")).

Definition testRuntime (answer : http.Response + error) : Runtime :=
  {| context_Context := unit;
     Payload := string;
     Slot := string;
     Options := unit;
     url_Parse := test_Parse;
     URL_String := test_String;
     Values_Encode := λ _, EmptyString;
     query_Values := λ _, inl ∅;
     json_Marshal := λ b, inl b;
     json_Unmarshal := test_Unmarshal;
     http_NewRequestWithContext := test_NewRequest;
     CanonicalMIMEHeaderKey := λ k, k;
     Limiter_Wait := λ _ _, None;
     Client_Do := λ _, answer;
     range_headers := map_to_list;
     range_routes := map_to_list;
     ReleaseResponse_zero := EmptyString |}.

Definition testResponse (status : Z) (rateLimit : option string) (body : string)
    : http.Response :=
  {| http.StatusCode := status;
     http.ResponseHeader :=
       match rateLimit with
       | Some v => {[ RateLimitHeader := [v] ]}
       | None => ∅
       end;
     http.Body := {| http.content := body; http.failure := None |} |}.

Definition testClient (config : DiscogsConfig) : World :=
  let dc := NewDiscogsClient config in
  {| client := {| Host := testHost; Config := Config dc;
                  rateLimiter := rateLimiter dc |};
     trace := [] |}.

Definition testRequest : http.Request :=
  {| http.Method := http.MethodGet;
     http.URL := {| url.Scheme := "http"; url.Host := "127.0.0.1:8080";
                    url.Path := "/test"; url.RawQuery := EmptyString |};
     http.RequestHeader := ∅; http.RequestBody := None |}.

Definition noCredentials : DiscogsConfig :=
  {| AppName := EmptyString; ConsumerKey := None; ConsumerSecret := None;
     AccessToken := None; MaxRequests := 0 |}.

Definition withMaxRequests (n : Z) : DiscogsConfig :=
  set_MaxRequests n noCredentials.


(** ** The call site of the search, and the texts of the errors *)

Section CallSites.

Variable R : Runtime.

(** The zero value of [SearchResponse], the value of [var res]. *)
Variable SearchResponse_zero : Slot R.

Definition Search (ctx : context_Context R) (options : option (Options R))
    : M (option (Slot R) * option error) :=
  let endpoint := "/database/search" in
  let res := SearchResponse_zero in
  match query_Values R options with
  | inr err => mret (None, Some err)
  | inl params =>
      '(err, res) ← Get R ctx endpoint (Some params) None (Some res);
      match err with
      | Some err => mret (None, Some err)
      | None => mret (res, None)
      end
  end.

End CallSites.

(** [(e *HTTPError) Error()]: [fmt.Sprintf("HTTP %d: %s", ...)]. *)
Definition HTTPError_Error (e : HTTPError) : string :=
  "HTTP " +:+ strconv_FormatInt (StatusCode e) +:+ ": " +:+ Message e.

(** [(e *ErrMissingCredentials) Error()]. *)
Definition ErrMissingCredentials_Error (RequiredAuthType : AuthType)
    (Endpoint : string) : string :=
  "missing required auth credentials of type " +:+ RequiredAuthType
  +:+ " for endpoint: " +:+ Endpoint.

(** [(e *ErrMatchNotFound) Error()]. *)
Definition ErrMatchNotFound_Error (Endpoint : string) : string :=
  "no matching route found for endpoint: " +:+ Endpoint.

(** [(e *ErrReleaseNotFound) Error()]; [e.Message] is the message of the
    embedded [HTTPError]. *)
Definition ErrReleaseNotFound_Error (ReleaseID : Z) (e : HTTPError) : string :=
  "Release ID " +:+ strconv_FormatInt ReleaseID +:+ " not found: " +:+ Message e.

(** ** More vocabulary *)

(** A pattern without placeholders. *)
Definition literal (route : string) : Prop :=
  ∀ part, part ∈ segments route → ¬ brace_wrapped part.

(** The bytes of a decimal numeral: the digits and the minus sign. *)
Definition numeral_byte (c : ascii) : bool :=
  Ascii.eqb c "-" || match digit_of c with Some _ => true | None => false end.

Fixpoint numeral (s : string) : bool :=
  match s with
  | EmptyString => true
  | String c rest => numeral_byte c && numeral rest
  end.

(** The requests handed to the transport, in a trace. *)
Fixpoint exchanges (evs : list Event) : list http.Request :=
  match evs with
  | [] => []
  | EvClientDo req :: rest => req :: exchanges rest
  | _ :: rest => exchanges rest
  end.

(** The request [request] hands to [addAuthHeaders]: the constructed one,
    with the caller's headers and then the application name set. *)
Definition prepared (R : Runtime) (dc : DiscogsClient)
    (headers : option (gmap string string)) (req : http.Request) : http.Request :=
  let req :=
    match headers with
    | Some hs => set_headers R (range_headers R hs) req
    | None => req
    end in
  http.set_Header
    (http.Header_Set (http.RequestHeader req) UserAgentHeader (AppName (Config dc)))
    req.

(** A call returned a result or an error, not both and not neither. *)
Definition result_xor_error {A : Type} (r : option A * option error) : Prop :=
  (is_Some r.1 ∧ r.2 = None) ∨ (r.1 = None ∧ is_Some r.2).

(** The test server behind a limiter whose [Wait] fails, as for a
    cancelled context. *)
Definition cancelledRuntime (answer : http.Response + error) : Runtime :=
  {| context_Context := unit;
     Payload := string;
     Slot := string;
     Options := unit;
     url_Parse := test_Parse;
     URL_String := test_String;
     Values_Encode := λ _, EmptyString;
     query_Values := λ _, inl ∅;
     json_Marshal := λ b, inl b;
     json_Unmarshal := test_Unmarshal;
     http_NewRequestWithContext := test_NewRequest;
     CanonicalMIMEHeaderKey := λ k, k;
     Limiter_Wait := λ _ _, Some (ErrLib "context canceled");
     Client_Do := λ _, answer;
     range_headers := map_to_list;
     range_routes := map_to_list;
     ReleaseResponse_zero := EmptyString |}.

(** The request the test server receives for a GET of [/test] by a client
    without credentials whose caller sets a User-Agent header of its own. *)
Definition testSent : http.Request :=
  prepared (testRuntime (inl (testResponse 200 None "{}")))
    (client (testClient noCredentials))
    (Some {[ "User-Agent" := "mine" ]}) testRequest.

(** A limit of [n] requests per minute, to the nanosecond: one request per
    [d] nanoseconds, where [n] intervals of [d] fit in a minute and [n]
    intervals of [d + 1] do not. No limit is [n] requests per minute for an
    [n] that is zero or negative, and [rate.Inf] is so for no [n]. *)
Definition per_minute (n : Z) (l : rate.Limit) : Prop :=
  ∃ d, l = rate.OnePer d ∧ 0 < d ∧ n * d <= time_Minute < n * (d + 1).

(** * Properties *)

(** ** Strings *)

Lemma substring_0_0 (s : string) : substring 0 0 s = EmptyString.
Proof. by destruct s. Qed.

Lemma HasPrefix_brace (s : string) :
  strings_HasPrefix s "{" = true ↔ ∃ rest, s = String "{" rest.
Proof.
  unfold strings_HasPrefix. destruct s as [|c s]; simpl.
  - split; [done | by intros [? ?]].
  - rewrite substring_0_0. split.
    + destruct (Ascii.eqb_spec c "{") as [-> | ?]; [by exists s | done].
    + intros [rest [= -> ->]]. done.
Qed.

Lemma last_byte (s : string) :
  s ≠ EmptyString → ∃ front c, s = front +:+ String c EmptyString.
Proof.
  induction s as [|a s IH]; [done | intros _].
  destruct s as [|b s].
  - by exists EmptyString, a.
  - destruct IH as (front & c & ->); [done |]. by exists (String a front), c.
Qed.

Lemma length_snoc (front : string) (c : ascii) :
  String.length (front +:+ String c EmptyString) = S (String.length front).
Proof. induction front as [|a front IH]; simpl; [done | by rewrite IH]. Qed.

Lemma substring_last (front : string) (c : ascii) :
  substring (String.length front) 1 (front +:+ String c EmptyString)
  = String c EmptyString.
Proof. induction front as [|a front IH]; simpl; done. Qed.

Lemma HasSuffix_brace (s : string) :
  strings_HasSuffix s "}" = true ↔ ∃ front, s = front +:+ "}".
Proof.
  unfold strings_HasSuffix. split.
  - intros [Hlen Heq]%andb_true_iff.
    destruct (last_byte s) as (front & c & ->).
    { intros ->. done. }
    exists front. revert Heq. rewrite length_snoc. simpl.
    rewrite Nat.sub_0_r, substring_last. by intros ->%String.eqb_eq.
  - intros [front ->]. rewrite length_snoc. simpl.
    rewrite Nat.sub_0_r, substring_last. done.
Qed.

Lemma append_snoc_inv (a : ascii) (rest front : string) (c : ascii) :
  String a rest = front +:+ String c EmptyString →
  (front = EmptyString ∧ rest = EmptyString ∧ a = c)
  ∨ ∃ mid, front = String a mid ∧ rest = mid +:+ String c EmptyString.
Proof.
  destruct front as [|b front]; simpl.
  - intros [= -> ->]. by left.
  - intros [= -> ->]. right. by exists front.
Qed.

(** The placeholder test of [isMatch] is the specification's "brace-wrapped". *)
Lemma isPlaceholder_brace_wrapped (part : string) :
  isPlaceholder part = true ↔ brace_wrapped part.
Proof.
  unfold isPlaceholder, brace_wrapped.
  rewrite andb_true_iff, HasPrefix_brace, HasSuffix_brace. split.
  - intros [[rest ->] [front Hfront]].
    apply append_snoc_inv in Hfront as [(_ & _ & [=]) | (mid & -> & ->)].
    by exists mid.
  - intros [mid ->]. split; [by eexists | by exists ("{" +:+ mid)].
Qed.

Lemma isPlaceholder_false (part : string) :
  isPlaceholder part = false ↔ ¬ brace_wrapped part.
Proof.
  rewrite <- isPlaceholder_brace_wrapped. by destruct (isPlaceholder part).
Qed.

(** ** Route matcher *)

(** On lists of the same length the loop of [isMatch] indexes in range. *)
Lemma isMatch_loop_in_range (routeParts endpointParts : list string) (i : nat) :
  (i + length routeParts ≤ length endpointParts)%nat →
  is_Some (isMatch_loop routeParts i endpointParts).
Proof.
  revert i. induction routeParts as [|part rest IH]; intros i Hlen; simpl in *.
  - by eexists.
  - destruct (isPlaceholder part); [apply IH; lia |].
    destruct (lookup_lt_is_Some_2 endpointParts i) as [e ->]; [lia |].
    destruct (negb _); [by eexists | apply IH; lia].
Qed.

Lemma isMatch_loop_true (routeParts endpointParts : list string) (i : nat) :
  (i + length routeParts ≤ length endpointParts)%nat →
  isMatch_loop routeParts i endpointParts = Some true
  ↔ ∀ j part,
      routeParts !! j = Some part → ¬ brace_wrapped part →
      endpointParts !! (i + j)%nat = Some part.
Proof.
  revert i. induction routeParts as [|part rest IH]; intros i Hlen; simpl in *.
  - split; [intros _ j part; by rewrite lookup_nil | done].
  - destruct (isPlaceholder part) eqn:Hph.
    + rewrite IH by lia. split.
      * intros H [|j] p Hp Hnb; simpl in Hp.
        -- injection Hp as ->. by apply isPlaceholder_brace_wrapped in Hph.
        -- rewrite Nat.add_succ_r. by apply H.
      * intros H j p Hp Hnb. specialize (H (S j) p Hp Hnb).
        by rewrite Nat.add_succ_r in H.
    + apply isPlaceholder_false in Hph.
      destruct (lookup_lt_is_Some_2 endpointParts i) as [e He]; [lia |].
      rewrite He. destruct (String.eqb_spec part e) as [<- | Hne]; simpl.
      * rewrite IH by lia. split.
        -- intros H [|j] p Hp Hnb; simpl in Hp.
           ++ injection Hp as <-. by rewrite Nat.add_0_r.
           ++ rewrite Nat.add_succ_r. by apply H.
        -- intros H j p Hp Hnb. specialize (H (S j) p Hp Hnb).
           by rewrite Nat.add_succ_r in H.
      * split; [done |]. intros H. specialize (H 0%nat part eq_refl Hph).
        rewrite Nat.add_0_r, He in H. congruence.
Qed.

Lemma isMatch_segments_match (route endpoint : string) :
  isMatch route endpoint = true ↔ segments_match route endpoint.
Proof.
  unfold isMatch, segments_match, segments.
  destruct (Nat.eqb_spec (length (strings_Split route "/"))
              (length (strings_Split endpoint "/"))) as [Hlen | Hlen]; simpl.
  - pose proof (isMatch_loop_true (strings_Split route "/")
                  (strings_Split endpoint "/") 0) as Hloop.
    simpl in Hloop. rewrite <- Hloop by lia.
    destruct (isMatch_loop _ _ _) as [[|]|];
      (split; [intros ?; by split | by intros [_ ?]]).
  - split; [done | by intros [? _]].
Qed.

Lemma segments_mismatch_not_match (route endpoint : string) :
  segments_mismatch route endpoint → ¬ segments_match route endpoint.
Proof.
  intros [Hlen | (i & part & e & Hr & Hnb & He & Hne)] [Hlen' Hall]; [done |].
  specialize (Hall i part Hr Hnb). congruence.
Qed.

Lemma matchRoute_range_none (endpoint : string) (entries : list (string * AuthType)) :
  (∀ route authType, (route, authType) ∈ entries → isMatch route endpoint = false) →
  matchRoute_range endpoint entries
  = (AuthTypeUnknown, Some (ErrMatchNotFound endpoint)).
Proof.
  induction entries as [|[route authType] rest IH]; intros Hnone; simpl; [done |].
  rewrite (Hnone route authType) by left. apply IH.
  intros r a Hin. apply (Hnone r a). by right.
Qed.

Lemma matchRoute_range_unique (endpoint : string)
    (entries : list (string * AuthType)) (route : string) (authType : AuthType) :
  (route, authType) ∈ entries →
  isMatch route endpoint = true →
  (∀ route' authType',
     (route', authType') ∈ entries → isMatch route' endpoint = true →
     authType' = authType) →
  matchRoute_range endpoint entries = (authType, None).
Proof.
  induction entries as [|[r a] rest IH]; intros Hin Hm Huniq; simpl.
  - by apply elem_of_nil in Hin.
  - destruct (isMatch r endpoint) eqn:Hr.
    + by rewrite (Huniq r a) by (done || left).
    + apply IH; [| done |].
      * apply elem_of_cons in Hin as [[= -> ->] | Hin]; [congruence | done].
      * intros r' a' Hin'. apply Huniq. by right.
Qed.

Lemma range_order_elem_of (authMap : gmap string AuthType)
    (entries : list (string * AuthType)) (route : string) (authType : AuthType) :
  range_order authMap entries →
  (route, authType) ∈ entries ↔ authMap !! route = Some authType.
Proof. intros ->. apply elem_of_map_to_list. Qed.

(** C1. [isMatch] holds exactly when the pattern and the path have the same
    number of ['/']-delimited segments and every segment of the pattern that
    is not brace-wrapped equals the path's segment at its position. Hence,
    in whatever order the route table is ranged over, [matchRoute] returns
    the auth class of the one entry a path matches, and the no-route-matched
    error for a path that every pattern of the table mismatches in its
    segment count or in a literal segment; and it always returns. *)
Theorem matchRoute_by_segments (authMap : gmap string AuthType) (endpoint : string) :
  (∀ route, isMatch route endpoint = true ↔ segments_match route endpoint)
  ∧ (∀ route authType r,
       authMap !! route = Some authType →
       segments_match route endpoint →
       (∀ route', is_Some (authMap !! route') →
                  segments_match route' endpoint → route' = route) →
       matchRoute endpoint authMap r →
       r = (authType, None))
  ∧ (∀ r,
       (∀ route, is_Some (authMap !! route) → segments_mismatch route endpoint) →
       matchRoute endpoint authMap r →
       r = (AuthTypeUnknown, Some (ErrMatchNotFound endpoint)))
  ∧ (∃ r, matchRoute endpoint authMap r).
Proof.
  split; [intros route; apply isMatch_segments_match |].
  split; [| split].
  - intros route authType r Hroute Hmatch Huniq (entries & Horder & <-).
    apply (matchRoute_range_unique endpoint entries route).
    + by apply (range_order_elem_of authMap).
    + by apply isMatch_segments_match.
    + intros route' authType' Hin Hm.
      apply (range_order_elem_of authMap) in Hin; [| done].
      assert (route' = route) as ->.
      { apply Huniq; [by eexists | by apply isMatch_segments_match]. }
      congruence.
  - intros r Hnone (entries & Horder & <-).
    apply matchRoute_range_none. intros route authType Hin.
    apply (range_order_elem_of authMap) in Hin; [| done].
    destruct (isMatch route endpoint) eqn:Hm; [| done].
    apply isMatch_segments_match in Hm.
    destruct (segments_mismatch_not_match route endpoint); [| done].
    apply Hnone. by eexists.
  - exists (matchRoute_range endpoint (map_to_list authMap)).
    exists (map_to_list authMap). split; [by unfold range_order | done].
Qed.

Lemma Split_cons (s : string) (sep : ascii) :
  ∃ part parts, strings_Split s sep = part :: parts.
Proof.
  induction s as [|c s (part & parts & IH)]; simpl; [by eexists _, _ |].
  rewrite IH. destruct (Ascii.eqb c sep); by eexists _, _.
Qed.

(** The segments are the pieces between the slashes: joined with slashes
    they give the string back, and none of them holds a slash. *)
Lemma segments_join (s : string) : join_segments (segments s) = s.
Proof.
  unfold segments. induction s as [|c s IH]; simpl; [done |].
  destruct (Split_cons s "/") as (part & parts & Hs). rewrite Hs in *.
  destruct (Ascii.eqb_spec c "/") as [-> | Hne]; simpl in *.
  - by rewrite IH.
  - destruct parts; simpl in *; by rewrite <- IH.
Qed.

Lemma segments_no_slash (s part : string) :
  part ∈ segments s → occurs "/" part = false.
Proof.
  unfold segments. revert part. induction s as [|c s IH]; intros part; simpl.
  - by intros ->%list_elem_of_singleton.
  - destruct (Split_cons s "/") as (p & parts & Hs). rewrite Hs in *.
    destruct (Ascii.eqb_spec c "/") as [-> | Hne].
    + intros [-> | Hin]%elem_of_cons; [done | by apply IH].
    + intros [-> | Hin]%elem_of_cons; simpl.
      * destruct (Ascii.eqb_spec c "/"); [done |]. apply IH. by left.
      * apply IH. by right.
Qed.

(** ** Rate limiter *)

Lemma Atoi_empty : ∃ err, strconv_Atoi EmptyString = inr err.
Proof. by eexists. Qed.

Lemma Get_absent (h : http.Header) (key : string) :
  h !! key = None → http.Header_Get h key = EmptyString.
Proof. unfold http.Header_Get. by intros ->. Qed.

(** Within the range the API uses, the derived limit is finite: one request
    per [time.Minute / n] nanoseconds. *)
Lemma perMinute_finite (n : Z) :
  0 < n <= time_Minute →
  perMinute n = rate.OnePer (time_Minute ÷ n) ∧ 0 < time_Minute ÷ n.
Proof.
  intros [Hpos Hle]. unfold perMinute, rate.Every.
  assert (0 < time_Minute ÷ n) as Hq.
  { rewrite Z.quot_div_nonneg by (unfold time_Minute; lia).
    apply Z.div_str_pos. lia. }
  destruct (Z.leb_spec (time_Minute ÷ n) 0); [lia | done].
Qed.

(** What an update does when the header carries an integer. *)
Lemma updateRateLimitFromHeader_carries (dc : DiscogsClient) (res : http.Response)
    (R : Z) :
  carries (http.ResponseHeader res) R →
  updateRateLimitFromHeader dc res
  = if effectiveLimit dc R =? 0 then dc
    else {| Host := Host dc; Config := Config dc;
            rateLimiter := rate.NewLimiter (perMinute (effectiveLimit dc R))
                             (effectiveLimit dc R) |}.
Proof.
  unfold carries, updateRateLimitFromHeader. intros HR.
  destruct (String.eqb_spec (http.Header_Get (http.ResponseHeader res) RateLimitHeader)
              EmptyString) as [Heq | _]; simpl.
  - rewrite Heq in HR. by destruct Atoi_empty as [err ?]; simplify_eq.
  - rewrite HR. by destruct (effectiveLimit dc R =? 0).
Qed.

(** An update either leaves the client as it is, or sets the burst to a
    number other than zero and the limit to the one derived from it. *)
Lemma updateRateLimitFromHeader_step (dc : DiscogsClient) (res : http.Response) :
  updateRateLimitFromHeader dc res = dc
  ∨ ∃ n, n ≠ 0
      ∧ updateRateLimitFromHeader dc res
        = {| Host := Host dc; Config := Config dc;
             rateLimiter := rate.NewLimiter (perMinute n) n |}.
Proof.
  unfold updateRateLimitFromHeader.
  destruct (negb _); [| by left].
  destruct (strconv_Atoi _) as [rateLimit | err]; [| by left].
  destruct (Z.eqb_spec (effectiveLimit dc rateLimit) 0) as [? | Hne]; simpl;
    [by left | right].
  by exists (effectiveLimit dc rateLimit).
Qed.

Lemma updates_Config (dc : DiscogsClient) (rs : list http.Response) :
  Config (updates dc rs) = Config dc ∧ Host (updates dc rs) = Host dc.
Proof.
  unfold updates. revert dc. induction rs as [|res rs IH]; intros dc; simpl;
    [done |].
  destruct (IH (updateRateLimitFromHeader dc res)) as [-> ->].
  by destruct (updateRateLimitFromHeader_step dc res) as [-> | (n & _ & ->)].
Qed.

Lemma updates_Burst (dc : DiscogsClient) (rs : list http.Response) :
  Burst dc ≠ 0 → Burst (updates dc rs) ≠ 0.
Proof.
  unfold updates. revert dc. induction rs as [|res rs IH]; intros dc Hdc; simpl;
    [done |].
  apply IH.
  by destruct (updateRateLimitFromHeader_step dc res) as [-> | (n & Hn & ->)].
Qed.

(** The invariant of the limiter: on every client a program can hold, the
    burst is not zero and the rate is the one derived from the burst. *)
Lemma reachable_limit_nonzero (dc : DiscogsClient) :
  reachable dc → Burst dc ≠ 0 ∧ Limit dc = perMinute (Burst dc).
Proof.
  induction 1 as [config | dc n _ IH | dc res _ IH | dc host _ IH].
  - unfold NewDiscogsClient, Burst, Limit. simpl.
    destruct (String.eqb _ _); simpl;
      (destruct (Z.ltb_spec 0 (MaxRequests config)); simpl; [split; [lia | done] |]);
      by destruct (ConsumerKey config), (ConsumerSecret config).
  - unfold SetMaxRequests.
    destruct (Z.ltb_spec 0 n); [| done]. unfold Burst, Limit. simpl.
    split; [lia | done].
  - by destruct (updateRateLimitFromHeader_step dc res) as [-> | (n & Hn & ->)].
  - done.
Qed.

(** The limits that are [n] requests per minute: [n] is between 1 and the
    nanoseconds of a minute, and the limit is one request per
    [time.Minute / n] nanoseconds. *)
Lemma per_minute_iff (n : Z) (l : rate.Limit) :
  per_minute n l
  ↔ 0 < n <= time_Minute ∧ l = rate.OnePer (time_Minute ÷ n).
Proof.
  unfold per_minute, time_Minute. split.
  - intros (d & -> & Hd & Hle & Hlt).
    assert (0 < n) as Hn by nia.
    split; [split; [done | nia] |]. f_equal.
    rewrite Z.quot_div_nonneg by lia.
    apply (Z.div_unique _ _ _ (60000000000 - n * d)); lia.
  - intros [[Hn Hle] ->]. exists (60000000000 ÷ n).
    rewrite Z.quot_div_nonneg by lia.
    split; [done |]. split; [by apply Z.div_str_pos |].
    split; [by apply Z.mul_div_le |].
    by apply (Z.mul_succ_div_gt 60000000000 n).
Qed.

(** C2, as amended. When the rate-limit header of a response carries an
    integer [R] above zero and [n], which is [min(C, R)] if a ceiling
    [C > 0] is configured and [R] if none is, is at most the nanoseconds of
    a minute, the update sets the limiter's burst to [n] and its rate to [n]
    requests per minute: one request per [time.Minute / n] nanoseconds. *)
Theorem updateRateLimitFromHeader_min_in_range (dc : DiscogsClient)
    (res : http.Response) (R : Z) :
  carries (http.ResponseHeader res) R →
  0 < R →
  let C := MaxRequests (Config dc) in
  let dc' := updateRateLimitFromHeader dc res in
  (0 < C → Z.min C R <= time_Minute →
   Limit dc' = rate.OnePer (time_Minute ÷ Z.min C R)
   ∧ per_minute (Z.min C R) (Limit dc')
   ∧ Burst dc' = Z.min C R)
  ∧ (C <= 0 → R <= time_Minute →
     Limit dc' = rate.OnePer (time_Minute ÷ R)
     ∧ per_minute R (Limit dc')
     ∧ Burst dc' = R).
Proof.
  intros HR Hpos C dc'. subst dc'.
  rewrite (updateRateLimitFromHeader_carries dc res R HR).
  unfold effectiveLimit. fold C. split; intros HC Hle.
  - destruct (Z.ltb_spec 0 C); [| lia].
    destruct (Z.eqb_spec (Z.min C R) 0); [lia |].
    unfold Limit, Burst. simpl.
    destruct (perMinute_finite (Z.min C R)) as [-> _]; [lia |].
    split; [done |]. split; [| done]. apply per_minute_iff. split; [lia | done].
  - destruct (Z.ltb_spec 0 C); [lia |].
    destruct (Z.eqb_spec R 0); [lia |].
    unfold Limit, Burst. simpl.
    destruct (perMinute_finite R) as [-> _]; [lia |].
    split; [done |]. split; [| done]. apply per_minute_iff. split; [lia | done].
Qed.

(** C3. A response whose rate-limit header is absent, is not numeric, or
    carries the integer 0 leaves the client as it is: rate, burst and
    [MaxRequests]. No sequence of header-driven updates brings a limit that
    is not zero to zero: each update that changes the limiter sets its burst
    to a number other than zero, and its rate to the one derived from that
    number. *)
Theorem updateRateLimitFromHeader_never_zero :
  (∀ dc res,
     absent (http.ResponseHeader res) ∨ non_numeric (http.ResponseHeader res)
     ∨ carries (http.ResponseHeader res) 0 →
     updateRateLimitFromHeader dc res = dc)
  ∧ (∀ dc rs, Burst dc ≠ 0 → Burst (updates dc rs) ≠ 0)
  ∧ (∀ dc res,
       rateLimiter (updateRateLimitFromHeader dc res) = rateLimiter dc
       ∨ (Burst (updateRateLimitFromHeader dc res) ≠ 0
          ∧ Limit (updateRateLimitFromHeader dc res)
            = perMinute (Burst (updateRateLimitFromHeader dc res))))
  ∧ (∀ dc rs, MaxRequests (Config (updates dc rs)) = MaxRequests (Config dc)).
Proof.
  split; [| split; [| split]].
  - intros dc res [Habs | [[err Herr] | H0]].
    + unfold updateRateLimitFromHeader.
      by rewrite (Get_absent _ _ Habs).
    + unfold updateRateLimitFromHeader. rewrite Herr. by destruct (negb _).
    + rewrite (updateRateLimitFromHeader_carries dc res 0 H0).
      unfold effectiveLimit. destruct (Z.ltb_spec 0 (MaxRequests (Config dc))).
      * by rewrite Z.min_r by lia.
      * done.
  - apply updates_Burst.
  - intros dc res.
    destruct (updateRateLimitFromHeader_step dc res) as [-> | (n & Hn & ->)];
      [by left | by right].
  - intros dc rs. by destruct (updates_Config dc rs) as [-> _].
Qed.

(** C10. [SetMaxRequests] with a number of requests per minute that is zero
    or negative changes nothing: not the limiter's rate, not its burst, not
    the [MaxRequests] of the configuration. *)
Theorem SetMaxRequests_nonpositive (dc : DiscogsClient) (requestsPerMinute : Z) :
  requestsPerMinute <= 0 →
  SetMaxRequests requestsPerMinute dc = dc
  ∧ Limit (SetMaxRequests requestsPerMinute dc) = Limit dc
  ∧ Burst (SetMaxRequests requestsPerMinute dc) = Burst dc
  ∧ MaxRequests (Config (SetMaxRequests requestsPerMinute dc))
    = MaxRequests (Config dc).
Proof.
  intros Hle. unfold SetMaxRequests.
  by destruct (Z.ltb_spec 0 requestsPerMinute); [lia |].
Qed.

(** ** Auth header builder *)

(** C9. For an auth class other than none, key+secret, oauth and
    personal-access-token, the unknown class among them, [addAuthHeaders]
    returns [nil] and leaves the request, and so its Authorization header,
    as it was. *)
Theorem addAuthHeaders_unrecognized :
  (∀ dc req authType,
     authType ≠ AuthTypeNone → authType ≠ AuthTypeKeySecret →
     authType ≠ AuthTypeOAuth → authType ≠ AuthTypePAT →
     addAuthHeaders dc req authType = (req, None))
  ∧ (∀ dc req, addAuthHeaders dc req AuthTypeUnknown = (req, None)).
Proof.
  split; [| done].
  intros dc req authType Hnone Hks Hoauth Hpat. unfold addAuthHeaders.
  destruct (String.eqb_spec authType AuthTypeNone); [done |].
  destruct (String.eqb_spec authType AuthTypeKeySecret); [done |].
  destruct (String.eqb_spec authType AuthTypeOAuth); [done |].
  by destruct (String.eqb_spec authType AuthTypePAT).
Qed.

Lemma addAuthHeaders_KeySecret_missing (dc : DiscogsClient) (req : http.Request) :
  ConsumerKey (Config dc) = None ∨ ConsumerSecret (Config dc) = None →
  addAuthHeaders dc req AuthTypeKeySecret
  = (req, Some (ErrMissingCredentials AuthTypeKeySecret (url.Path (http.URL req)))).
Proof.
  unfold addAuthHeaders. simpl.
  destruct (ConsumerKey (Config dc)), (ConsumerSecret (Config dc));
    by intros [? | ?].
Qed.

(** ** Request pipeline *)

Section PipelineProperties.

Variable R : Runtime.

Lemma set_headers_URL (headers : list (string * string)) (req : http.Request) :
  http.URL (set_headers R headers req) = http.URL req.
Proof.
  unfold set_headers. revert req.
  induction headers as [|kv headers IH]; intros req; simpl; [done |].
  by rewrite IH.
Qed.

(** What [Do] does once the limiter has let the request through and the
    transport has returned a response whose body was read. *)
Lemma Do_received (ctx : context_Context R) (req : http.Request)
    (res : option (Slot R)) (w : World) (response : http.Response) :
  Limiter_Wait R (rateLimiter (client w)) ctx = None →
  Client_Do R req = inl response →
  http.failure (http.Body response) = None →
  let w' := {| client := updateRateLimitFromHeader (client w) response;
               trace := trace w ++ [EvWait; EvClientDo req] |} in
  let responseBody := http.content (http.Body response) in
  Do R ctx req res w
  = if (http.StatusCode response <? 200) || (300 <=? http.StatusCode response)
    then ((Some (ErrHTTP {| StatusCode := http.StatusCode response;
                            Message := responseBody |}), res), w')
    else match res with
         | Some slot =>
             if (0 <? String.length responseBody)%nat then
               let w'' := {| client := client w';
                             trace := trace w' ++ [EvUnmarshal responseBody] |} in
               match json_Unmarshal R responseBody slot with
               | (slot', Some err) =>
                   ((Some (Errorf "failed to unmarshal response body: %w" err),
                     Some slot'), w'')
               | (slot', None) => ((None, Some slot'), w'')
               end
             else ((None, res), w')
         | None => ((None, res), w')
         end.
Proof.
  intros Hwait Hdo Hread. unfold Do. run_M.
  rewrite Hwait, Hdo. unfold io_ReadAll. rewrite Hread. simpl.
  rewrite <- (assoc_L (++)). simpl.
  destruct (_ || _); [done |].
  destruct res as [slot|]; [| done].
  destruct (0 <? _)%nat; [| done]. simpl.
  rewrite <- (assoc_L (++)). simpl.
  by destruct (json_Unmarshal R _ slot) as [slot' [err|]].
Qed.

(** C8. Once the transport has returned a response, [Do] updates the rate
    limiter from its rate-limit header before it reads the body or looks at
    the status code: the client [Do] leaves behind is the updated one
    whatever the status code is, 2xx or not, and whatever [Do] returns. *)
Theorem Do_updates_limiter_first (ctx : context_Context R) (req : http.Request)
    (res : option (Slot R)) (w : World) (response : http.Response) :
  Limiter_Wait R (rateLimiter (client w)) ctx = None →
  Client_Do R req = inl response →
  client (Do R ctx req res w).2 = updateRateLimitFromHeader (client w) response.
Proof.
  intros Hwait Hdo. unfold Do. run_M. rewrite Hwait, Hdo.
  unfold io_ReadAll. destruct (http.failure (http.Body response)); [done |].
  destruct (_ || _); [done |].
  destruct res as [slot|]; [| done].
  destruct (0 <? _)%nat; [| done]. simpl.
  by destruct (json_Unmarshal R _ slot) as [slot' [err|]].
Qed.

(** C5. For a response, returned by the transport and read to its end,
    whose status code is outside 200..299, [Do] returns an [HTTPError] with
    that status code and with the raw text of the response body as its
    message; the output slot is as it was, and no JSON decoding takes
    place: the calls made are the token acquisition and the exchange. *)
Theorem Do_status_error (ctx : context_Context R) (req : http.Request)
    (res : option (Slot R)) (w : World) (response : http.Response)
    (responseBody : string) :
  Limiter_Wait R (rateLimiter (client w)) ctx = None →
  Client_Do R req = inl response →
  io_ReadAll (http.Body response) = (responseBody, None) →
  http.StatusCode response < 200 ∨ 299 < http.StatusCode response →
  ∃ w',
    Do R ctx req res w
    = ((Some (ErrHTTP {| StatusCode := http.StatusCode response;
                         Message := responseBody |}), res), w')
    ∧ trace w' = (trace w ++ [EvWait; EvClientDo req])%list.
Proof.
  intros Hwait Hdo [= <- Hread] Hstatus.
  rewrite (Do_received ctx req res w response Hwait Hdo Hread). simpl.
  destruct (Z.ltb_spec (http.StatusCode response) 200);
    destruct (Z.leb_spec 300 (http.StatusCode response)); simpl;
    try (by eexists); lia.
Qed.

(** C6. For a response, returned by the transport and read to its end,
    with a 2xx status code: with a body that is not empty and an output
    slot that is not nil, [Do] decodes the body into the slot, and returns
    nil if the decoding succeeds and, if it fails, an error that wraps the
    decoder's and is not an [HTTPError]; with an empty body or a nil slot,
    [Do] returns nil and does not decode. *)
Theorem Do_success (ctx : context_Context R) (req : http.Request)
    (res : option (Slot R)) (w : World) (response : http.Response)
    (responseBody : string) :
  Limiter_Wait R (rateLimiter (client w)) ctx = None →
  Client_Do R req = inl response →
  io_ReadAll (http.Body response) = (responseBody, None) →
  200 <= http.StatusCode response <= 299 →
  (∀ slot, res = Some slot → responseBody ≠ EmptyString →
     ∃ w',
       trace w' = (trace w ++ [EvWait; EvClientDo req; EvUnmarshal responseBody])%list
       ∧ match json_Unmarshal R responseBody slot with
         | (slot', None) => Do R ctx req res w = ((None, Some slot'), w')
         | (slot', Some err) =>
             ∃ malformed,
               Do R ctx req res w = ((Some malformed, Some slot'), w')
               ∧ malformed = Errorf "failed to unmarshal response body: %w" err
               ∧ as_HTTPError malformed = None
         end)
  ∧ (res = None ∨ responseBody = EmptyString →
     ∃ w',
       Do R ctx req res w = ((None, res), w')
       ∧ trace w' = (trace w ++ [EvWait; EvClientDo req])%list).
Proof.
  intros Hwait Hdo [= <- Hread] Hstatus.
  rewrite (Do_received ctx req res w response Hwait Hdo Hread). simpl.
  destruct (Z.ltb_spec (http.StatusCode response) 200); [lia |].
  destruct (Z.leb_spec 300 (http.StatusCode response)); [lia |]. simpl.
  split.
  - intros slot -> Hne.
    destruct (http.content (http.Body response)) as [|c body]; [done |]. simpl.
    exists {| client := updateRateLimitFromHeader (client w) response;
              trace := trace w ++ [EvWait; EvClientDo req;
                                   EvUnmarshal (String c body)] |}.
    split; [done |]. rewrite <- (assoc_L (++)). simpl.
    destruct (json_Unmarshal R _ slot) as [slot' [err|]]; [by eexists | done].
  - intros [-> | ->]; [by eexists |].
    destruct res; by eexists.
Qed.

(** C4. On a configuration without the consumer key or without the
    consumer secret, a call for an endpoint whose resolved auth class is
    key+secret returns, for the request it has constructed, the
    missing-credentials error that names that class and the path of the
    request. Whether or not the request could be constructed, the call
    returns an error and leaves the world as it was: the limiter is not
    asked for a token and the transport is not invoked. *)
Theorem request_missing_key_secret (ctx : context_Context R)
    (method endpoint : string) (params : option url.Values)
    (headers : option (gmap string string)) (body : option (Payload R))
    (res : option (Slot R)) (w : World) :
  matchRoute_range endpoint (range_routes R EndpointAuthMap)
  = (AuthTypeKeySecret, None) →
  ConsumerKey (Config (client w)) = None
  ∨ ConsumerSecret (Config (client w)) = None →
  (∀ req,
     constructs R (client w) ctx method endpoint params body req →
     request R ctx method endpoint params headers body res w
     = ((Some (ErrMissingCredentials AuthTypeKeySecret (url.Path (http.URL req))),
         res), w))
  ∧ (∃ err, request R ctx method endpoint params headers body res w
            = ((Some err, res), w)).
Proof.
  intros Hroute Hmissing.
  assert (∀ req0 : http.Request,
            addAuthHeaders (client w) req0 AuthTypeKeySecret
            = (req0, Some (ErrMissingCredentials AuthTypeKeySecret
                             (url.Path (http.URL req0))))) as Hauth.
  { intros req0. by apply addAuthHeaders_KeySecret_missing. }
  split.
  - intros req (baseURL & reqBody & Hparse & Hbody & Hnew).
    unfold request. run_M. rewrite Hparse.
    assert (match body with
            | Some b => match json_Marshal R b with
                        | inl encoded => inl (Some encoded)
                        | inr err => inr err
                        end
            | None => inl None
            end = (inl reqBody : option string + error)) as ->.
    { destruct body as [b|]; [| by subst].
      destruct Hbody as (encoded & -> & ->). done. }
    rewrite Hnew, Hroute, Hauth. simpl.
    destruct headers as [hs|]; simpl; [| done].
    by rewrite set_headers_URL.
  - unfold request. run_M.
    destruct (url_Parse R _) as [baseURL | err]; [| by eexists].
    destruct body as [b|].
    + destruct (json_Marshal R b) as [encoded | err]; [| by eexists].
      destruct (http_NewRequestWithContext R _ _ _ _) as [req | err];
        [| by eexists].
      rewrite Hroute, Hauth. by eexists.
    + destruct (http_NewRequestWithContext R _ _ _ _) as [req | err];
        [| by eexists].
      rewrite Hroute, Hauth. by eexists.
Qed.

Lemma int_of_int64_id (x : Z) : is_int64 x → int_of_int64 x = x.
Proof.
  unfold is_int64, int_of_int64, wrap, intSize. intros Hx.
  rewrite Z.mod_small; lia.
Qed.

(** C7. When the pipeline hands [Release] an HTTP error with status 404,
    [Release] returns the release-not-found error with the requested
    identifier, embedding that HTTP error, status code and message (the raw
    response body) as they were; every other HTTP error is returned as it
    is. Either way no result is returned. *)
Theorem Release_classifies (ctx : context_Context R) (releaseID : Z)
    (options : option (Options R)) (w w' : World) (params : url.Values)
    (httpErr : HTTPError) (res' : option (Slot R)) :
  is_int64 releaseID →
  query_Values R options = inl params →
  Get R ctx ("/releases/" +:+ strconv_FormatInt releaseID) (Some params) None
    (Some (ReleaseResponse_zero R)) w
  = ((Some (ErrHTTP httpErr), res'), w') →
  (StatusCode httpErr = 404 →
   Release R ctx releaseID options w
   = ((None, Some (ErrReleaseNotFound releaseID httpErr)), w'))
  ∧ (StatusCode httpErr ≠ 404 →
     Release R ctx releaseID options w = ((None, Some (ErrHTTP httpErr)), w')).
Proof.
  intros Hid Hvalues Hget. unfold Release. rewrite Hvalues. run_M.
  rewrite Hget. simpl. unfold http.StatusNotFound.
  rewrite (int_of_int64_id releaseID Hid).
  split; intros Hstatus.
  - by rewrite Hstatus.
  - by destruct (Z.eqb_spec (StatusCode httpErr) 404).
Qed.

End PipelineProperties.

(** ** The route table of the package *)

Lemma EndpointAuthMap_entries (route : string) (authType : AuthType) :
  EndpointAuthMap !! route = Some authType →
  (route = "/test" ∧ authType = AuthTypeNone)
  ∨ (route = "/releases/{release_id}" ∧ authType = AuthTypeNone)
  ∨ (route = "/database/search" ∧ authType = AuthTypeKeySecret).
Proof.
  unfold EndpointAuthMap. intros H.
  apply lookup_insert_Some in H as [[<- <-] | [_ H]]; [by left |].
  apply lookup_insert_Some in H as [[<- <-] | [_ H]]; [by right; left |].
  apply lookup_insert_Some in H as [[<- <-] | [_ H]]; [by right; right |].
  by rewrite lookup_empty in H.
Qed.

(** The search endpoint resolves to key+secret in every iteration order. *)
Lemma database_search_KeySecret (entries : list (string * AuthType)) :
  range_order EndpointAuthMap entries →
  matchRoute_range "/database/search" entries = (AuthTypeKeySecret, None).
Proof.
  intros Horder.
  apply (matchRoute_range_unique _ entries "/database/search").
  - by apply (range_order_elem_of EndpointAuthMap).
  - done.
  - intros route' authType' Hin Hm.
    apply (range_order_elem_of EndpointAuthMap) in Hin; [| done].
    by apply EndpointAuthMap_entries in Hin
      as [[-> ->] | [[-> ->] | [-> ->]]].
Qed.

(** ** The tests of the package, and the examples of the specification *)

Example Test_isMatch :
  isMatch "/no/match" "/match" = false
  ∧ isMatch "/basic" "/basic" = true
  ∧ isMatch "/nested/match" "/nested/match" = true
  ∧ isMatch "/param/{id}" "/param/1234" = true.
Proof. by repeat split. Qed.

Example Split_of_empty : strings_Split EmptyString "/" = [EmptyString].
Proof. reflexivity. Qed.

Example Test_matchRoute_release :
  matchRoute_range "/releases/2" (map_to_list EndpointAuthMap)
  = (AuthTypeNone, None).
Proof. by vm_compute. Qed.

Example TestNewDiscogsClient :
  Limit (NewDiscogsClient noCredentials) = perMinute RateLimitUnauth
  ∧ AppName (Config (NewDiscogsClient noCredentials)) = DefaultAppName
  ∧ Limit (NewDiscogsClient (withMaxRequests 100)) = perMinute 100.
Proof. by repeat split. Qed.

Example TestUpdateRateLimitFromHeader :
  Limit (updateRateLimitFromHeader (NewDiscogsClient (withMaxRequests 50))
           (testResponse 200 (Some "25") EmptyString)) = perMinute 25
  ∧ Limit (updateRateLimitFromHeader (NewDiscogsClient (withMaxRequests 20))
             (testResponse 200 (Some "60") EmptyString)) = perMinute 20
  ∧ Limit (updateRateLimitFromHeader (NewDiscogsClient (withMaxRequests 20))
             (testResponse 200 (Some "0") EmptyString)) = perMinute 20.
Proof. by vm_compute. Qed.

(** A 404 from the release lookup of release 2, end to end. *)
Example TestDatabase_Release_not_found :
  (Release (testRuntime (inl (testResponse 404 None "Release not found.")))
     tt 2 None (testClient noCredentials)).1
  = (None, Some (ErrReleaseNotFound 2 {| StatusCode := 404;
                                         Message := "Release not found." |})).
Proof. by vm_compute. Qed.

Example TestDatabase_Release_found :
  (Release (testRuntime (inl (testResponse 200 None "{}")))
     tt 1 None (testClient noCredentials)).1
  = (Some "{}", None).
Proof. by vm_compute. Qed.

(** ** The theorems at concrete inputs *)

Lemma matchRoute_by_segments_witness :
  segments_match "/releases/{release_id}" "/releases/2"
  ∧ matchRoute_range "/releases/2" (map_to_list EndpointAuthMap)
    = (AuthTypeNone, None).
Proof.
  destruct (matchRoute_by_segments EndpointAuthMap "/releases/2")
    as (Hiff & Hone & _ & _).
  assert (segments_match "/releases/{release_id}" "/releases/2") as Hmatch.
  { apply Hiff. reflexivity. }
  split; [exact Hmatch |].
  apply (Hone "/releases/{release_id}" AuthTypeNone).
  - reflexivity.
  - exact Hmatch.
  - intros route' [authType' Hin] Hm. apply Hiff in Hm.
    apply EndpointAuthMap_entries in Hin
      as [[-> ->] | [[-> ->] | [-> ->]]];
      [discriminate Hm | reflexivity | discriminate Hm].
  - exists (map_to_list EndpointAuthMap).
    split; [unfold range_order |]; reflexivity.
Defined.

Lemma updateRateLimitFromHeader_min_in_range_witness :
  Limit (updateRateLimitFromHeader (NewDiscogsClient (withMaxRequests 50))
           (testResponse 200 (Some "25") EmptyString))
  = rate.OnePer 2400000000
  ∧ per_minute 25
      (Limit (updateRateLimitFromHeader (NewDiscogsClient (withMaxRequests 50))
                (testResponse 200 (Some "25") EmptyString)))
  ∧ Burst (updateRateLimitFromHeader (NewDiscogsClient (withMaxRequests 50))
             (testResponse 200 (Some "25") EmptyString)) = 25.
Proof.
  destruct (updateRateLimitFromHeader_min_in_range
              (NewDiscogsClient (withMaxRequests 50))
              (testResponse 200 (Some "25") EmptyString) 25 eq_refl eq_refl)
    as [Hceiling _].
  apply Hceiling; [reflexivity | discriminate].
Defined.

(** C2 as the specification states it fails for a header below zero: with
    the ceiling 50 and the header [-5], an integer other than zero, the
    update leaves the limiter without a rate limit ([rate.Inf]), which is
    not [min(50, -5)] requests per minute, nor any number of them. *)
Lemma updateRateLimitFromHeader_min_counterexample :
  carries
    (http.ResponseHeader (testResponse 200 (Some "-5") EmptyString)) (-5)
  ∧ -5 ≠ 0
  ∧ 0 < MaxRequests (Config (NewDiscogsClient (withMaxRequests 50)))
  ∧ Limit (updateRateLimitFromHeader (NewDiscogsClient (withMaxRequests 50))
             (testResponse 200 (Some "-5") EmptyString)) = rate.Inf
  ∧ Burst (updateRateLimitFromHeader (NewDiscogsClient (withMaxRequests 50))
             (testResponse 200 (Some "-5") EmptyString)) = -5
  ∧ ¬ per_minute (Z.min 50 (-5))
        (Limit (updateRateLimitFromHeader
                  (NewDiscogsClient (withMaxRequests 50))
                  (testResponse 200 (Some "-5") EmptyString))).
Proof.
  split; [reflexivity |]. split; [discriminate |]. split; [reflexivity |].
  split; [reflexivity |]. split; [reflexivity |].
  intros (d & Heq & _). discriminate Heq.
Qed.

Lemma updateRateLimitFromHeader_never_zero_witness :
  updateRateLimitFromHeader (NewDiscogsClient (withMaxRequests 20))
    (testResponse 200 (Some "0") EmptyString)
  = NewDiscogsClient (withMaxRequests 20)
  ∧ Burst (updates (NewDiscogsClient (withMaxRequests 20))
             [testResponse 200 (Some "-5") EmptyString;
              testResponse 500 (Some "0") EmptyString;
              testResponse 200 None EmptyString]) ≠ 0.
Proof.
  destruct updateRateLimitFromHeader_never_zero as (Hnoop & Hseq & _ & _).
  split.
  - apply Hnoop. right. right. reflexivity.
  - apply Hseq. discriminate.
Defined.

Lemma SetMaxRequests_nonpositive_witness :
  SetMaxRequests (-3) (NewDiscogsClient (withMaxRequests 20))
  = NewDiscogsClient (withMaxRequests 20).
Proof.
  apply (SetMaxRequests_nonpositive (NewDiscogsClient (withMaxRequests 20)) (-3)).
  discriminate.
Defined.

Lemma addAuthHeaders_unrecognized_witness :
  ∃ req,
    test_NewRequest tt http.MethodGet (testHost +:+ "/test") None = inl req
    ∧ addAuthHeaders (NewDiscogsClient noCredentials) req "basic" = (req, None).
Proof.
  eexists. split; [reflexivity |].
  apply (proj1 addAuthHeaders_unrecognized); discriminate.
Defined.

(** A transport that must not be reached. *)
Lemma request_missing_key_secret_witness :
  Get (testRuntime (inr (ErrLib "transport invoked"))) tt "/database/search"
    None None None (testClient noCredentials)
  = ((Some (ErrMissingCredentials AuthTypeKeySecret "/database/search"), None),
     testClient noCredentials).
Proof.
  apply (proj1 (request_missing_key_secret
                  (testRuntime (inr (ErrLib "transport invoked"))) tt
                  http.MethodGet "/database/search" None None None None
                  (testClient noCredentials) eq_refl (or_introl eq_refl))
           {| http.Method := http.MethodGet;
              http.URL := {| url.Scheme := "http"; url.Host := "127.0.0.1:8080";
                             url.Path := "/database/search";
                             url.RawQuery := EmptyString |};
              http.RequestHeader := ∅; http.RequestBody := None |}).
  eexists _, _. split; [reflexivity |]. split; reflexivity.
Defined.

Lemma Do_status_error_witness :
  (Do (testRuntime (inl (testResponse 500 None "Internal server error.")))
     tt testRequest (Some EmptyString) (testClient noCredentials)).1
  = (Some (ErrHTTP {| StatusCode := 500; Message := "Internal server error." |}),
     Some EmptyString).
Proof.
  destruct (Do_status_error
              (testRuntime (inl (testResponse 500 None "Internal server error.")))
              tt testRequest (Some EmptyString) (testClient noCredentials)
              (testResponse 500 None "Internal server error.")
              "Internal server error." eq_refl eq_refl eq_refl
              (or_intror eq_refl))
    as (w' & Hdo & _).
  rewrite Hdo. reflexivity.
Defined.

Lemma Do_success_witness :
  (Do (testRuntime (inl (testResponse 200 None "{}")))
     tt testRequest (Some EmptyString) (testClient noCredentials)).1
  = (None, Some "{}")
  ∧ (Do (testRuntime (inl (testResponse 204 None EmptyString)))
       tt testRequest (Some "before") (testClient noCredentials)).1
    = (None, Some "before").
Proof.
  split.
  - destruct (Do_success (testRuntime (inl (testResponse 200 None "{}")))
                tt testRequest (Some EmptyString) (testClient noCredentials)
                (testResponse 200 None "{}") "{}" eq_refl eq_refl eq_refl)
      as [Hdecode _].
    { split; discriminate. }
    destruct (Hdecode EmptyString eq_refl) as (w' & _ & Hdo); [discriminate |].
    simpl in Hdo. rewrite Hdo. reflexivity.
  - destruct (Do_success (testRuntime (inl (testResponse 204 None EmptyString)))
                tt testRequest (Some "before") (testClient noCredentials)
                (testResponse 204 None EmptyString) EmptyString
                eq_refl eq_refl eq_refl)
      as [_ Hskip].
    { split; discriminate. }
    destruct (Hskip (or_intror eq_refl)) as (w' & Hdo & _).
    rewrite Hdo. reflexivity.
Defined.

Lemma Do_updates_limiter_first_witness :
  Limit (client (Do (testRuntime (inl (testResponse 500 (Some "30") "busy")))
                   tt testRequest None (testClient noCredentials)).2)
  = perMinute 30.
Proof.
  rewrite (Do_updates_limiter_first
             (testRuntime (inl (testResponse 500 (Some "30") "busy")))
             tt testRequest None (testClient noCredentials)
             (testResponse 500 (Some "30") "busy") eq_refl eq_refl).
  reflexivity.
Defined.

Lemma Release_classifies_witness :
  (Release (testRuntime (inl (testResponse 404 None "Release not found.")))
     tt 2 None (testClient noCredentials)).1
  = (None, Some (ErrReleaseNotFound 2 {| StatusCode := 404;
                                         Message := "Release not found." |})).
Proof.
  set (R := testRuntime (inl (testResponse 404 None "Release not found."))).
  destruct (Release_classifies R tt 2 None (testClient noCredentials)
              (Get R tt "/releases/2" (Some ∅) None (Some EmptyString)
                 (testClient noCredentials)).2
              ∅ {| StatusCode := 404; Message := "Release not found." |}
              (Some EmptyString))
    as [Hnotfound _].
  - split; [discriminate | reflexivity].
  - reflexivity.
  - vm_compute. reflexivity.
  - rewrite Hnotfound; reflexivity.
Defined.

(** * Further properties of the package *)

(** ** Route matcher *)

Lemma Split_no_sep (s : string) (sep : ascii) :
  occurs sep s = false → strings_Split s sep = [s].
Proof.
  induction s as [|c s IH]; simpl; [done |].
  intros [Hc Hs]%orb_false_iff. rewrite Hc, (IH Hs). done.
Qed.

Lemma Split_snoc (s part : string) :
  occurs "/" part = false →
  strings_Split (s +:+ String "/" part) "/" = (strings_Split s "/" ++ [part])%list.
Proof.
  intros Hpart. induction s as [|c s IH]; simpl.
  - by rewrite (Split_no_sep part "/" Hpart).
  - rewrite IH. destruct (Split_cons s "/") as (p & ps & ->).
    by destruct (Ascii.eqb c "/").
Qed.

Lemma isMatch_loop_app (routeParts1 routeParts2 endpointParts : list string)
    (i : nat) :
  isMatch_loop (routeParts1 ++ routeParts2) i endpointParts
  = match isMatch_loop routeParts1 i endpointParts with
    | Some true => isMatch_loop routeParts2 (i + length routeParts1) endpointParts
    | r => r
    end.
Proof.
  revert i. induction routeParts1 as [|part rest IH]; intros i; simpl.
  - by rewrite Nat.add_0_r.
  - rewrite IH, Nat.add_succ_r. simpl.
    destruct (isPlaceholder part); [done |].
    destruct (endpointParts !! i) as [e|]; [| done].
    by destruct (negb _).
Qed.

Lemma isMatch_loop_prefix (routeParts endpointParts more : list string) (i : nat) :
  (i + length routeParts ≤ length endpointParts)%nat →
  isMatch_loop routeParts i (endpointParts ++ more)
  = isMatch_loop routeParts i endpointParts.
Proof.
  revert i. induction routeParts as [|part rest IH]; intros i Hlen; simpl in *;
    [done |].
  rewrite IH by lia. by rewrite lookup_app_l by lia.
Qed.

(** Matching goes segment by segment: a last segment of the pattern is
    matched against the last segment of the path, the rest against the
    rest. *)
Lemma isMatch_snoc (route endpoint part value : string) :
  occurs "/" part = false → occurs "/" value = false →
  isMatch (route +:+ String "/" part) (endpoint +:+ String "/" value)
  = isMatch route endpoint && (isPlaceholder part || String.eqb part value).
Proof.
  intros Hpart Hvalue. unfold isMatch.
  rewrite !Split_snoc by done. rewrite !length_app. simpl.
  destruct (Nat.eqb_spec (length (strings_Split route "/"))
              (length (strings_Split endpoint "/"))) as [Hlen | Hlen].
  - replace (length (strings_Split route "/") + 1
             =? length (strings_Split endpoint "/") + 1)%nat with true
      by (symmetry; apply Nat.eqb_eq; lia).
    simpl. rewrite isMatch_loop_app, isMatch_loop_prefix by lia. simpl.
    destruct (isMatch_loop_in_range (strings_Split route "/")
                (strings_Split endpoint "/") 0) as [b Hb]; [simpl; lia |].
    rewrite Hb. destruct b; [| done]. simpl.
    destruct (isPlaceholder part); [done |]. simpl.
    rewrite Hlen, lookup_app_r, Nat.sub_diag by lia. simpl.
    by destruct (String.eqb part value).
  - replace (length (strings_Split route "/") + 1
             =? length (strings_Split endpoint "/") + 1)%nat with false
      by (symmetry; apply Nat.eqb_neq; lia).
    done.
Qed.

Lemma isMatch_refl (route : string) : isMatch route route = true.
Proof.
  apply isMatch_segments_match. split; [done | by intros i part ? _].
Qed.

Lemma isMatch_literal_eq (route endpoint : string) :
  literal route → isMatch route endpoint = true → endpoint = route.
Proof.
  intros Hlit [Hlen Hall]%isMatch_segments_match.
  rewrite <- (segments_join route), <- (segments_join endpoint). f_equal.
  symmetry. apply list_eq_same_length with (length (segments route)); [done.. |].
  intros i part e Hi Hpart He.
  rewrite (Hall i part Hpart) in He; [congruence |].
  apply Hlit. by eapply list_elem_of_lookup_2.
Qed.

(** What [matchRoute] returns, in whatever order the table is ranged over. *)
Lemma matchRoute_range_cases (endpoint : string)
    (entries : list (string * AuthType)) :
  (∃ route authType,
     (route, authType) ∈ entries ∧ isMatch route endpoint = true
     ∧ matchRoute_range endpoint entries = (authType, None))
  ∨ ((∀ route authType, (route, authType) ∈ entries →
        isMatch route endpoint = false)
     ∧ matchRoute_range endpoint entries
       = (AuthTypeUnknown, Some (ErrMatchNotFound endpoint))).
Proof.
  induction entries as [|[r a] rest IH]; simpl.
  - right. split; [| done]. intros route authType Hin. by apply elem_of_nil in Hin.
  - destruct (isMatch r endpoint) eqn:Hr.
    + left. exists r, a. split; [by left | done].
    + destruct IH as [(route & authType & Hin & Hm & Heq) | [Hnone Heq]].
      * left. exists route, authType. split; [by right | done].
      * right. split; [| done].
        intros route authType [[= -> ->] | Hin]%elem_of_cons; [done |].
        by apply (Hnone route authType).
Qed.

Lemma literal_check (route : string) :
  forallb (λ part, negb (isPlaceholder part)) (segments route) = true →
  literal route.
Proof.
  intros Hall part Hin. apply isPlaceholder_false.
  rewrite forallb_forall in Hall. apply list_elem_of_In in Hin.
  specialize (Hall part Hin). by destruct (isPlaceholder part).
Qed.

Lemma numeral_occurs (c : ascii) (s : string) :
  numeral_byte c = false → numeral s = true → occurs c s = false.
Proof.
  intros Hc. induction s as [|a s IH]; simpl; [done |].
  intros [Ha Hs]%andb_true_iff. rewrite (IH Hs), orb_false_r.
  destruct (Ascii.eqb_spec a c) as [-> | _]; [congruence | done].
Qed.

Lemma pretty_N_char_numeral (x : N) : numeral_byte (pretty_N_char x) = true.
Proof. unfold pretty_N_char. by repeat case_match. Qed.

Lemma pretty_N_go_numeral (x : N) (s : string) :
  numeral s = true → numeral (pretty_N_go x s) = true.
Proof.
  revert s. induction (N.lt_wf_0 x) as [x _ IH]; intros s Hs.
  assert (x = 0 ∨ 0 < x)%N as [-> | Hpos] by lia.
  - by rewrite pretty_N_go_0.
  - rewrite pretty_N_go_step by done. apply IH; [by apply N.div_lt |].
    simpl. by rewrite pretty_N_char_numeral.
Qed.

(** The decimal text of an integer holds digits and a minus sign only. *)
Lemma FormatInt_numeral (i : Z) : numeral (strconv_FormatInt i) = true.
Proof.
  unfold strconv_FormatInt, pretty, pretty_Z.
  destruct i as [|x|x]; [done | |].
  - unfold pretty, pretty_positive, pretty, pretty_N.
    case_decide; [done | by apply pretty_N_go_numeral].
  - simpl. unfold pretty, pretty_positive, pretty, pretty_N.
    case_decide; [done | by apply pretty_N_go_numeral].
Qed.

(** The endpoint of [Release] against the three patterns of the table. *)
Lemma release_endpoint_isMatch (releaseID : Z) :
  isMatch "/releases/{release_id}" ("/releases/" +:+ strconv_FormatInt releaseID)
  = true
  ∧ isMatch "/database/search" ("/releases/" +:+ strconv_FormatInt releaseID)
    = false.
Proof.
  assert (occurs "/" (strconv_FormatInt releaseID) = false) as Hid.
  { apply numeral_occurs; [done | apply FormatInt_numeral]. }
  split.
  - change (isMatch ("/releases" +:+ String "/" "{release_id}")
              ("/releases" +:+ String "/" (strconv_FormatInt releaseID)) = true).
    by rewrite isMatch_snoc.
  - change (isMatch ("/database" +:+ String "/" "search")
              ("/releases" +:+ String "/" (strconv_FormatInt releaseID)) = false).
    by rewrite isMatch_snoc.
Qed.

Lemma release_endpoint_AuthTypeNone (releaseID : Z)
    (entries : list (string * AuthType)) :
  range_order EndpointAuthMap entries →
  matchRoute_range ("/releases/" +:+ strconv_FormatInt releaseID) entries
  = (AuthTypeNone, None).
Proof.
  intros Horder. destruct (release_endpoint_isMatch releaseID) as [Hrel Hsearch].
  apply (matchRoute_range_unique _ entries "/releases/{release_id}").
  - by apply (range_order_elem_of EndpointAuthMap).
  - done.
  - intros route' authType' Hin Hm.
    apply (range_order_elem_of EndpointAuthMap) in Hin; [| done].
    apply EndpointAuthMap_entries in Hin
      as [[-> ->] | [[-> ->] | [-> ->]]]; [done | done | congruence].
Qed.

(** No path matches two patterns of the table that ask for different
    classes. *)
Lemma EndpointAuthMap_unambiguous (endpoint route1 route2 : string)
    (authType1 authType2 : AuthType) :
  EndpointAuthMap !! route1 = Some authType1 →
  EndpointAuthMap !! route2 = Some authType2 →
  isMatch route1 endpoint = true → isMatch route2 endpoint = true →
  authType1 = authType2.
Proof.
  assert (literal "/database/search") as Hlit by (by apply literal_check).
  intros H1 H2 Hm1 Hm2.
  apply EndpointAuthMap_entries in H1 as [[-> ->] | [[-> ->] | [-> ->]]];
    apply EndpointAuthMap_entries in H2 as [[-> ->] | [[-> ->] | [-> ->]]];
    try done.
  all: first [ apply (isMatch_literal_eq _ _ Hlit) in Hm1; subst endpoint
             | apply (isMatch_literal_eq _ _ Hlit) in Hm2; subst endpoint ];
    done.
Qed.

(** X1. Whatever the route table, also one whose patterns overlap, and in
    whatever order it is ranged over: what [matchRoute] returns without an
    error is the class of an entry whose pattern matches the path, and it
    returns the no-route-matched error, with the unknown class, exactly
    when no pattern of the table matches. *)
Theorem matchRoute_sound_complete (authMap : gmap string AuthType)
    (endpoint : string) (r : AuthType * option error) :
  matchRoute endpoint authMap r →
  (∃ route,
     authMap !! route = Some r.1 ∧ isMatch route endpoint = true ∧ r.2 = None)
  ∨ ((∀ route, is_Some (authMap !! route) → isMatch route endpoint = false)
     ∧ r = (AuthTypeUnknown, Some (ErrMatchNotFound endpoint))).
Proof.
  intros (entries & Horder & <-).
  destruct (matchRoute_range_cases endpoint entries)
    as [(route & authType & Hin & Hm & ->) | [Hnone ->]].
  - left. exists route. split; [| done].
    by apply (range_order_elem_of authMap entries).
  - right. split; [| done]. intros route [authType Hroute].
    apply (Hnone route authType).
    by apply (range_order_elem_of authMap entries).
Qed.

Lemma matchRoute_sound_complete_witness :
  (∃ route,
     EndpointAuthMap !! route = Some AuthTypeUnknown
     ∧ isMatch route "/artists/1" = true
     ∧ Some (ErrMatchNotFound "/artists/1") = None)
  ∨ ((∀ route, is_Some (EndpointAuthMap !! route) →
               isMatch route "/artists/1" = false)
     ∧ (AuthTypeUnknown, Some (ErrMatchNotFound "/artists/1"))
       = (AuthTypeUnknown, Some (ErrMatchNotFound "/artists/1"))).
Proof.
  apply (matchRoute_sound_complete EndpointAuthMap "/artists/1"
           (AuthTypeUnknown, Some (ErrMatchNotFound "/artists/1"))).
  exists (map_to_list EndpointAuthMap). split; [unfold range_order |]; reflexivity.
Defined.

(** X2. On the route table of the package the result of [matchRoute] does
    not depend on the order in which the map is ranged over: for every
    path, any two runs return the same class and the same error. *)
Theorem matchRoute_EndpointAuthMap_order_independent (endpoint : string)
    (r1 r2 : AuthType * option error) :
  matchRoute endpoint EndpointAuthMap r1 →
  matchRoute endpoint EndpointAuthMap r2 →
  r1 = r2.
Proof.
  intros (entries1 & Horder1 & <-) (entries2 & Horder2 & <-).
  destruct (matchRoute_range_cases endpoint entries1)
    as [(route1 & a1 & Hin1 & Hm1 & ->) | [Hnone1 ->]];
    destruct (matchRoute_range_cases endpoint entries2)
      as [(route2 & a2 & Hin2 & Hm2 & ->) | [Hnone2 ->]].
  - apply (range_order_elem_of EndpointAuthMap) in Hin1; [| done].
    apply (range_order_elem_of EndpointAuthMap) in Hin2; [| done].
    by rewrite (EndpointAuthMap_unambiguous endpoint route1 route2 a1 a2).
  - apply (range_order_elem_of EndpointAuthMap) in Hin1; [| done].
    apply (range_order_elem_of EndpointAuthMap entries2) in Hin1; [| done].
    rewrite (Hnone2 route1 a1 Hin1) in Hm1. done.
  - apply (range_order_elem_of EndpointAuthMap) in Hin2; [| done].
    apply (range_order_elem_of EndpointAuthMap entries1) in Hin2; [| done].
    rewrite (Hnone1 route2 a2 Hin2) in Hm2. done.
  - done.
Qed.

Lemma matchRoute_EndpointAuthMap_order_independent_witness :
  matchRoute_range "/test" (reverse (map_to_list EndpointAuthMap))
  = matchRoute_range "/test" (map_to_list EndpointAuthMap).
Proof.
  apply (matchRoute_EndpointAuthMap_order_independent "/test").
  - exists (reverse (map_to_list EndpointAuthMap)).
    split; [apply reverse_Permutation | reflexivity].
  - exists (map_to_list EndpointAuthMap).
    split; [unfold range_order |]; reflexivity.
Defined.

(** X3. A pattern none of whose segments is a placeholder matches one path
    only, the pattern itself; and every pattern, with placeholders or
    without, matches itself. *)
Theorem isMatch_literal (route endpoint : string) :
  literal route →
  (isMatch route endpoint = true ↔ endpoint = route)
  ∧ isMatch endpoint endpoint = true.
Proof.
  intros Hlit. split; [split |].
  - by apply isMatch_literal_eq.
  - intros ->. apply isMatch_refl.
  - apply isMatch_refl.
Qed.

Lemma isMatch_literal_witness :
  (isMatch "/database/search" "/database/search/" = true
   ↔ "/database/search/" = "/database/search")
  ∧ isMatch "/database/search/" "/database/search/" = true.
Proof.
  apply (isMatch_literal "/database/search" "/database/search/").
  apply literal_check. reflexivity.
Defined.

(** X4. Matching goes segment by segment. With a last segment added to the
    pattern and to the path, neither holding a slash, the pattern matches
    exactly when it matched before and the added segment of the pattern is
    a placeholder or equals the added segment of the path; the added
    segment of the path may be empty. *)
Theorem isMatch_last_segment (route endpoint part value : string) :
  occurs "/" part = false → occurs "/" value = false →
  isMatch (route +:+ "/" +:+ part) (endpoint +:+ "/" +:+ value) = true
  ↔ isMatch route endpoint = true ∧ (brace_wrapped part ∨ part = value).
Proof.
  intros Hpart Hvalue.
  change (isMatch (route +:+ String "/" part) (endpoint +:+ String "/" value)
          = true
          ↔ isMatch route endpoint = true ∧ (brace_wrapped part ∨ part = value)).
  rewrite isMatch_snoc by done.
  rewrite andb_true_iff, orb_true_iff, isPlaceholder_brace_wrapped.
  by rewrite String.eqb_eq.
Qed.

Lemma isMatch_last_segment_witness :
  isMatch ("/releases" +:+ "/" +:+ "{release_id}")
    ("/releases" +:+ "/" +:+ EmptyString) = true
  ↔ isMatch "/releases" "/releases" = true
    ∧ (brace_wrapped "{release_id}" ∨ "{release_id}" = EmptyString).
Proof.
  apply (isMatch_last_segment "/releases" "/releases" "{release_id}" EmptyString);
    reflexivity.
Defined.

(** X5. The endpoint [Release] builds for a release identifier resolves to
    the class none, for every identifier, the negative ones too, and in
    every order in which the route table is ranged over. *)
Theorem Release_endpoint_AuthTypeNone (releaseID : Z) (r : AuthType * option error) :
  matchRoute ("/releases/" +:+ strconv_FormatInt releaseID) EndpointAuthMap r →
  r = (AuthTypeNone, None).
Proof.
  intros (entries & Horder & <-). by apply release_endpoint_AuthTypeNone.
Qed.

Lemma Release_endpoint_AuthTypeNone_witness :
  matchRoute_range ("/releases/" +:+ strconv_FormatInt (-7))
    (reverse (map_to_list EndpointAuthMap))
  = (AuthTypeNone, None).
Proof.
  apply (Release_endpoint_AuthTypeNone (-7)).
  exists (reverse (map_to_list EndpointAuthMap)).
  split; [apply reverse_Permutation | reflexivity].
Defined.

(** ** Rate limiter *)

Lemma updateRateLimitFromHeader_Config (dc : DiscogsClient) (res : http.Response) :
  Config (updateRateLimitFromHeader dc res) = Config dc
  ∧ Host (updateRateLimitFromHeader dc res) = Host dc.
Proof.
  by destruct (updateRateLimitFromHeader_step dc res) as [-> | (n & _ & ->)].
Qed.

Lemma effectiveLimit_Config (dc dc' : DiscogsClient) (rateLimit : Z) :
  Config dc' = Config dc → effectiveLimit dc' rateLimit = effectiveLimit dc rateLimit.
Proof. unfold effectiveLimit. by intros ->. Qed.

Lemma effectiveLimit_nonzero (dc : DiscogsClient) (R : Z) :
  R ≠ 0 → effectiveLimit dc R ≠ 0.
Proof.
  unfold effectiveLimit. intros HR.
  destruct (Z.ltb_spec 0 (MaxRequests (Config dc))); lia.
Qed.

Lemma effectiveLimit_le (dc : DiscogsClient) (R : Z) :
  0 < MaxRequests (Config dc) → effectiveLimit dc R <= MaxRequests (Config dc).
Proof.
  unfold effectiveLimit. intros HC.
  destruct (Z.ltb_spec 0 (MaxRequests (Config dc))); lia.
Qed.

(** What an update does, by the text of the header. *)
Lemma updateRateLimitFromHeader_cases (dc : DiscogsClient) (res : http.Response) :
  updateRateLimitFromHeader dc res = dc
  ∨ ∃ R, carries (http.ResponseHeader res) R ∧ effectiveLimit dc R ≠ 0
      ∧ updateRateLimitFromHeader dc res
        = {| Host := Host dc; Config := Config dc;
             rateLimiter := rate.NewLimiter (perMinute (effectiveLimit dc R))
                              (effectiveLimit dc R) |}.
Proof.
  unfold updateRateLimitFromHeader, carries.
  destruct (negb _); [| by left].
  destruct (strconv_Atoi _) as [rateLimit | err]; [| by left].
  destruct (Z.eqb_spec (effectiveLimit dc rateLimit) 0) as [? | Hne]; simpl;
    [by left | right].
  by exists rateLimit.
Qed.

Lemma reachable_Burst_le (dc : DiscogsClient) :
  reachable dc →
  0 < MaxRequests (Config dc) → Burst dc <= MaxRequests (Config dc).
Proof.
  induction 1 as [config | dc n _ IH | dc res _ IH | dc host _ IH].
  - unfold NewDiscogsClient, Burst. simpl.
    destruct (String.eqb _ _); simpl;
      (destruct (Z.ltb_spec 0 (MaxRequests config)); simpl; [lia |]);
      destruct (ConsumerKey config), (ConsumerSecret config); simpl; lia.
  - unfold SetMaxRequests. destruct (Z.ltb_spec 0 n); [| done].
    unfold Burst. simpl. lia.
  - destruct (updateRateLimitFromHeader_cases dc res) as [-> | (R & _ & _ & ->)];
      [done |].
    unfold Burst. simpl. apply effectiveLimit_le.
  - done.
Qed.

(** X6. On every client a program can hold (created by [NewDiscogsClient],
    then changed by [SetMaxRequests] and by response headers) the burst is
    not zero, the rate is the one derived from the burst, and, when a
    ceiling is configured, the burst is not above it: headers lower the
    limit below [MaxRequests] and raise it back, never beyond. *)
Theorem reachable_ceiling (dc : DiscogsClient) :
  reachable dc →
  Burst dc ≠ 0
  ∧ Limit dc = perMinute (Burst dc)
  ∧ (0 < MaxRequests (Config dc) → Burst dc <= MaxRequests (Config dc)).
Proof.
  intros Hdc. destruct (reachable_limit_nonzero dc Hdc) as [Hne Hlimit].
  split; [done | split; [done |]]. by apply reachable_Burst_le.
Qed.

Lemma reachable_ceiling_witness :
  Burst (updateRateLimitFromHeader
           (SetMaxRequests 40 (NewDiscogsClient noCredentials))
           (testResponse 200 (Some "60") EmptyString)) ≠ 0
  ∧ Limit (updateRateLimitFromHeader
             (SetMaxRequests 40 (NewDiscogsClient noCredentials))
             (testResponse 200 (Some "60") EmptyString))
    = perMinute (Burst (updateRateLimitFromHeader
                          (SetMaxRequests 40 (NewDiscogsClient noCredentials))
                          (testResponse 200 (Some "60") EmptyString)))
  ∧ (0 < 40 →
     Burst (updateRateLimitFromHeader
              (SetMaxRequests 40 (NewDiscogsClient noCredentials))
              (testResponse 200 (Some "60") EmptyString)) <= 40).
Proof.
  apply (reachable_ceiling
           (updateRateLimitFromHeader
              (SetMaxRequests 40 (NewDiscogsClient noCredentials))
              (testResponse 200 (Some "60") EmptyString))).
  apply reachable_update, reachable_SetMaxRequests, reachable_New.
Defined.

(** X7. Header-driven updates do not accumulate. An update by a header that
    carries an integer other than zero gives the same client whatever the
    earlier response was; and applying the update of one response twice is
    applying it once. *)
Theorem updateRateLimitFromHeader_last_wins (dc : DiscogsClient)
    (res1 res2 : http.Response) (R2 : Z) :
  carries (http.ResponseHeader res2) R2 → R2 ≠ 0 →
  updateRateLimitFromHeader (updateRateLimitFromHeader dc res1) res2
  = updateRateLimitFromHeader dc res2
  ∧ updateRateLimitFromHeader (updateRateLimitFromHeader dc res1) res1
    = updateRateLimitFromHeader dc res1.
Proof.
  intros H2 Hne.
  destruct (updateRateLimitFromHeader_Config dc res1) as [Hconfig Hhost].
  split.
  - rewrite !(updateRateLimitFromHeader_carries _ res2 R2 H2).
    rewrite (effectiveLimit_Config dc _ R2 Hconfig), Hconfig, Hhost.
    by destruct (Z.eqb_spec (effectiveLimit dc R2) 0)
      as [H0 | _]; [apply effectiveLimit_nonzero in H0 |].
  - destruct (updateRateLimitFromHeader_cases dc res1)
      as [Heq | (R1 & H1 & Hne1 & Heq)].
    + by rewrite !Heq.
    + rewrite (updateRateLimitFromHeader_carries _ res1 R1 H1).
      rewrite (effectiveLimit_Config dc _ R1 Hconfig), Hconfig, Hhost.
      rewrite Heq. by destruct (Z.eqb_spec (effectiveLimit dc R1) 0).
Qed.

Lemma updateRateLimitFromHeader_last_wins_witness :
  updateRateLimitFromHeader
    (updateRateLimitFromHeader (NewDiscogsClient (withMaxRequests 50))
       (testResponse 200 (Some "5") EmptyString))
    (testResponse 200 (Some "60") EmptyString)
  = updateRateLimitFromHeader (NewDiscogsClient (withMaxRequests 50))
      (testResponse 200 (Some "60") EmptyString).
Proof.
  apply (updateRateLimitFromHeader_last_wins
           (NewDiscogsClient (withMaxRequests 50))
           (testResponse 200 (Some "5") EmptyString)
           (testResponse 200 (Some "60") EmptyString) 60);
    [reflexivity | discriminate].
Defined.

(** X8. [SetMaxRequests] with a positive number [n] sets [MaxRequests] and
    the burst to [n], whatever headers have set before. For [n] up to the
    nanoseconds of a minute it sets the rate to one request per
    [time.Minute / n] nanoseconds, and from then on a header that carries
    [R], above zero, sets the burst to [min(n, R)] and the rate to one
    request per [time.Minute / min(n, R)] nanoseconds; for a larger [n] it
    leaves the limiter without a rate limit ([rate.Inf]). *)
Theorem SetMaxRequests_positive (dc : DiscogsClient) (n : Z)
    (before after : http.Response) (R : Z) :
  0 < n →
  SetMaxRequests n (updateRateLimitFromHeader dc before) = SetMaxRequests n dc
  ∧ MaxRequests (Config (SetMaxRequests n dc)) = n
  ∧ Burst (SetMaxRequests n dc) = n
  ∧ (n <= time_Minute →
     Limit (SetMaxRequests n dc) = rate.OnePer (time_Minute ÷ n)
     ∧ (carries (http.ResponseHeader after) R → 0 < R →
        Burst (updateRateLimitFromHeader (SetMaxRequests n dc) after)
        = Z.min n R
        ∧ Limit (updateRateLimitFromHeader (SetMaxRequests n dc) after)
          = rate.OnePer (time_Minute ÷ Z.min n R)))
  ∧ (time_Minute < n → Limit (SetMaxRequests n dc) = rate.Inf).
Proof.
  intros Hn.
  assert (∀ dc0, SetMaxRequests n dc0
                 = {| Host := Host dc0; Config := set_MaxRequests n (Config dc0);
                      rateLimiter := rate.NewLimiter (perMinute n) n |}) as Hset.
  { intros dc0. unfold SetMaxRequests. by destruct (Z.ltb_spec 0 n); [| lia]. }
  split.
  { rewrite !Hset.
    by destruct (updateRateLimitFromHeader_Config dc before) as [-> ->]. }
  rewrite Hset. unfold Burst, Limit. simpl.
  split; [done | split; [done |]]. split.
  - intros Hle. destruct (perMinute_finite n) as [-> _]; [lia |].
    split; [done |]. intros HR HposR.
    rewrite (updateRateLimitFromHeader_carries _ after R HR).
    unfold effectiveLimit. simpl.
    destruct (Z.ltb_spec 0 n); [| lia].
    destruct (Z.eqb_spec (Z.min n R) 0); [lia |]. simpl.
    split; [done |]. by destruct (perMinute_finite (Z.min n R)) as [-> _]; [lia |].
  - intros Hbig. unfold perMinute, rate.Every, time_Minute in *.
    by rewrite Z.quot_small by lia.
Qed.

Lemma SetMaxRequests_positive_witness :
  Burst (updateRateLimitFromHeader
           (SetMaxRequests 40 (NewDiscogsClient noCredentials))
           (testResponse 200 (Some "60") EmptyString)) = 40
  ∧ Limit (updateRateLimitFromHeader
             (SetMaxRequests 40 (NewDiscogsClient noCredentials))
             (testResponse 200 (Some "60") EmptyString))
    = rate.OnePer 1500000000.
Proof.
  destruct (SetMaxRequests_positive (NewDiscogsClient noCredentials) 40
              (testResponse 200 None EmptyString)
              (testResponse 200 (Some "60") EmptyString) 60)
    as (_ & _ & _ & Hrange & _); [reflexivity |].
  destruct Hrange as [_ Hheader]; [discriminate |].
  apply Hheader; reflexivity.
Defined.

(** X9. A header that carries a negative integer is not ignored: the
    limiter is left with a negative burst and without a rate limit
    ([rate.Inf]), with or without a configured ceiling. Without a ceiling
    the same happens to the rate for a value above the nanoseconds of a
    minute. *)
Theorem updateRateLimitFromHeader_out_of_range (dc : DiscogsClient)
    (res : http.Response) (R : Z) :
  carries (http.ResponseHeader res) R →
  (R < 0 →
   Limit (updateRateLimitFromHeader dc res) = rate.Inf
   ∧ Burst (updateRateLimitFromHeader dc res) = R)
  ∧ (time_Minute < R → MaxRequests (Config dc) <= 0 →
     Limit (updateRateLimitFromHeader dc res) = rate.Inf
     ∧ Burst (updateRateLimitFromHeader dc res) = R).
Proof.
  intros HR. rewrite (updateRateLimitFromHeader_carries dc res R HR).
  unfold effectiveLimit, time_Minute. split.
  - intros Hneg.
    assert ((if 0 <? MaxRequests (Config dc)
             then Z.min (MaxRequests (Config dc)) R else R) = R) as ->.
    { destruct (Z.ltb_spec 0 (MaxRequests (Config dc))); lia. }
    destruct (Z.eqb_spec R 0); [lia |]. unfold Limit, Burst. simpl.
    split; [| done]. unfold perMinute, rate.Every, time_Minute.
    destruct (Z.leb_spec (60000000000 ÷ R) 0) as [_ | Hq]; [done |].
    pose proof (Z.quot_opp_r 60000000000 R).
    assert (0 <= 60000000000 ÷ - R) by (apply Z.quot_pos; lia). lia.
  - intros Hbig HC.
    destruct (Z.ltb_spec 0 (MaxRequests (Config dc))); [lia |].
    destruct (Z.eqb_spec R 0); [lia |]. unfold Limit, Burst. simpl.
    split; [| done]. unfold perMinute, rate.Every, time_Minute.
    rewrite Z.quot_small by lia. done.
Qed.

Lemma updateRateLimitFromHeader_out_of_range_witness :
  Limit (updateRateLimitFromHeader (NewDiscogsClient (withMaxRequests 50))
           (testResponse 200 (Some "-5") EmptyString)) = rate.Inf
  ∧ Burst (updateRateLimitFromHeader (NewDiscogsClient (withMaxRequests 50))
             (testResponse 200 (Some "-5") EmptyString)) = -5.
Proof.
  destruct (updateRateLimitFromHeader_out_of_range
              (NewDiscogsClient (withMaxRequests 50))
              (testResponse 200 (Some "-5") EmptyString) (-5) eq_refl)
    as [Hnegative _].
  apply Hnegative. reflexivity.
Defined.

(** X10. A new client is never without an application name or with a burst
    that is not positive, and its host is the API's. Without a ceiling in
    the configuration it allows 60 requests per minute (one per second)
    when both the consumer key and the consumer secret are present and 25
    (one per 2.4 seconds) otherwise; a ceiling [C] of at most the
    nanoseconds of a minute gives the burst [C] and one request per
    [time.Minute / C] nanoseconds. *)
Theorem NewDiscogsClient_limiter (config : DiscogsConfig) :
  let dc := NewDiscogsClient config in
  AppName (Config dc) ≠ EmptyString
  ∧ Host dc = BaseURL
  ∧ 0 < Burst dc
  ∧ (MaxRequests config <= 0 →
     if bool_decide (is_Some (ConsumerKey config) ∧ is_Some (ConsumerSecret config))
     then Burst dc = 60 ∧ Limit dc = rate.OnePer 1000000000
     else Burst dc = 25 ∧ Limit dc = rate.OnePer 2400000000)
  ∧ (0 < MaxRequests config <= time_Minute →
     Burst dc = MaxRequests config
     ∧ Limit dc = rate.OnePer (time_Minute ÷ MaxRequests config)).
Proof.
  unfold NewDiscogsClient, Burst, Limit. simpl. split; [| split; [done |]].
  - destruct (String.eqb_spec (AppName config) EmptyString); simpl; done.
  - assert (MaxRequests
              (if (AppName config =? EmptyString)%string
               then set_AppName DefaultAppName config else config)
            = MaxRequests config) as HM by (by destruct (String.eqb _ _)).
    assert (ConsumerKey
              (if (AppName config =? EmptyString)%string
               then set_AppName DefaultAppName config else config)
            = ConsumerKey config) as HK by (by destruct (String.eqb _ _)).
    assert (ConsumerSecret
              (if (AppName config =? EmptyString)%string
               then set_AppName DefaultAppName config else config)
            = ConsumerSecret config) as HS by (by destruct (String.eqb _ _)).
    rewrite HM, HK, HS.
    destruct (Z.ltb_spec 0 (MaxRequests config)) as [Hpos | Hnon]; simpl.
    + split; [done |]. split; [lia |]. intros [_ Hle]. split; [done |].
      by destruct (perMinute_finite (MaxRequests config)) as [-> _].
    + split; [| split; [| lia]].
      * by destruct (ConsumerKey config), (ConsumerSecret config).
      * intros _. case_bool_decide as Hboth.
        -- destruct Hboth as [[k ->] [s ->]]. done.
        -- destruct (ConsumerKey config), (ConsumerSecret config);
             try done; destruct Hboth; by split.
Qed.

Lemma NewDiscogsClient_limiter_witness :
  Burst (NewDiscogsClient (withMaxRequests 100)) = 100
  ∧ Limit (NewDiscogsClient (withMaxRequests 100)) = rate.OnePer 600000000.
Proof.
  apply (NewDiscogsClient_limiter (withMaxRequests 100)).
  split; [reflexivity | discriminate].
Defined.

(** ** Auth header builder *)

Lemma Header_Get_Set (h : http.Header) (key value : string) :
  http.Header_Get (http.Header_Set h key value) key = value.
Proof.
  unfold http.Header_Get, http.Header_Set, http.Header in *.
  by rewrite lookup_insert_eq.
Qed.

Lemma Header_Set_same (h : http.Header) (key value : string) :
  http.Header_Set h key value !! key = Some [value].
Proof. unfold http.Header_Set, http.Header in *. apply lookup_insert_eq. Qed.

Lemma Header_Set_other (h : http.Header) (key key' value : string) :
  key' ≠ key → http.Header_Set h key value !! key' = h !! key'.
Proof.
  intros Hne. unfold http.Header_Set, http.Header in *.
  by rewrite lookup_insert_ne.
Qed.

(** X11. [addAuthHeaders] fails exactly when the credentials of the class
    are missing: both the consumer key and the consumer secret for
    key+secret, the access token for oauth and personal-access-token;
    every other class succeeds without credentials. When it fails, the
    error is the missing-credentials error with the class asked for and
    the path of the request, and the request is as it was. *)
Theorem addAuthHeaders_fails_iff (dc : DiscogsClient) (req : http.Request)
    (authType : AuthType) :
  ((addAuthHeaders dc req authType).2 = None
   ↔ (authType = AuthTypeKeySecret →
      is_Some (ConsumerKey (Config dc)) ∧ is_Some (ConsumerSecret (Config dc)))
     ∧ (authType = AuthTypeOAuth ∨ authType = AuthTypePAT →
        is_Some (AccessToken (Config dc))))
  ∧ ((addAuthHeaders dc req authType).2 ≠ None →
     addAuthHeaders dc req authType
     = (req, Some (ErrMissingCredentials authType (url.Path (http.URL req))))).
Proof.
  unfold addAuthHeaders.
  destruct (String.eqb_spec authType AuthTypeNone) as [-> | Hnone]; simpl.
  { split; [| done]. split; [| done]. intros _.
    split; [done | by intros [? | ?]]. }
  destruct (String.eqb_spec authType AuthTypeKeySecret) as [-> | Hks]; simpl.
  { destruct (ConsumerKey (Config dc)) as [k|],
      (ConsumerSecret (Config dc)) as [s|]; simpl; (split; [| done]).
    - split; [| done]. intros _. split; [by intros _; split | by intros [? | ?]].
    - split; [done |]. intros [H _]. destruct (H eq_refl) as [_ [? ?]]. done.
    - split; [done |]. intros [H _]. destruct (H eq_refl) as [[? ?] _]. done.
    - split; [done |]. intros [H _]. destruct (H eq_refl) as [[? ?] _]. done. }
  destruct (String.eqb_spec authType AuthTypeOAuth) as [-> | Hoauth]; simpl.
  { destruct (AccessToken (Config dc)) as [t|]; simpl; (split; [| done]).
    - split; [| done]. intros _. split; [done | by intros _].
    - split; [done |]. intros [_ H]. destruct H as [? ?]; [by left | done]. }
  destruct (String.eqb_spec authType AuthTypePAT) as [-> | Hpat]; simpl.
  { destruct (AccessToken (Config dc)) as [t|]; simpl; (split; [| done]).
    - split; [| done]. intros _. split; [done | by intros _].
    - split; [done |]. intros [_ H]. destruct H as [? ?]; [by right | done]. }
  split; [| done]. split; [| done]. intros _.
  split; [done | by intros [? | ?]].
Qed.

(** X12. [addAuthHeaders] touches nothing but the Authorization header: the
    method, the URL, the body and every other header of the request stay.
    With key and secret present the key+secret class sets the header to
    the one value [Discogs key=K, secret=S]; with a token present the
    oauth and the personal-access-token class both set it to [Bearer T];
    an earlier value of the header is replaced. *)
Theorem addAuthHeaders_frame (dc : DiscogsClient) (req : http.Request)
    (authType : AuthType) :
  let req' := (addAuthHeaders dc req authType).1 in
  http.Method req' = http.Method req
  ∧ http.URL req' = http.URL req
  ∧ http.RequestBody req' = http.RequestBody req
  ∧ (∀ key, key ≠ AuthHeader →
            http.RequestHeader req' !! key = http.RequestHeader req !! key)
  ∧ (∀ key secret,
       authType = AuthTypeKeySecret →
       ConsumerKey (Config dc) = Some key →
       ConsumerSecret (Config dc) = Some secret →
       http.RequestHeader req' !! AuthHeader
       = Some ["Discogs key=" +:+ key +:+ ", secret=" +:+ secret])
  ∧ (∀ token,
       authType = AuthTypeOAuth ∨ authType = AuthTypePAT →
       AccessToken (Config dc) = Some token →
       http.RequestHeader req' !! AuthHeader = Some ["Bearer " +:+ token]).
Proof.
  unfold addAuthHeaders.
  destruct (String.eqb_spec authType AuthTypeNone) as [-> | Hnone]; simpl.
  { repeat split; try done. by intros token [? | ?]. }
  destruct (String.eqb_spec authType AuthTypeKeySecret) as [-> | Hks]; simpl.
  { destruct (ConsumerKey (Config dc)) as [k|],
      (ConsumerSecret (Config dc)) as [s|]; simpl;
      repeat split; try done;
      try (by intros token [? | ?]);
      try (intros key Hkey; by apply Header_Set_other).
    intros key secret _ [= <-] [= <-]. apply Header_Set_same. }
  destruct (String.eqb_spec authType AuthTypeOAuth) as [-> | Hoauth]; simpl.
  { destruct (AccessToken (Config dc)) as [t|]; simpl;
      repeat split; try done;
      try (intros key Hkey; by apply Header_Set_other).
    intros token _ [= <-]. apply Header_Set_same. }
  destruct (String.eqb_spec authType AuthTypePAT) as [-> | Hpat]; simpl.
  { destruct (AccessToken (Config dc)) as [t|]; simpl;
      repeat split; try done;
      try (intros key Hkey; by apply Header_Set_other).
    intros token _ [= <-]. apply Header_Set_same. }
  repeat split; try done. by intros token [? | ?].
Qed.

Lemma addAuthHeaders_fails_iff_witness :
  addAuthHeaders (NewDiscogsClient noCredentials) testRequest AuthTypeOAuth
  = (testRequest, Some (ErrMissingCredentials AuthTypeOAuth "/test")).
Proof.
  apply (proj2 (addAuthHeaders_fails_iff (NewDiscogsClient noCredentials)
                  testRequest AuthTypeOAuth)).
  discriminate.
Defined.

Lemma addAuthHeaders_frame_witness :
  http.RequestHeader
    (addAuthHeaders
       (NewDiscogsClient {| AppName := "app"; ConsumerKey := None;
                            ConsumerSecret := None; AccessToken := Some "tok";
                            MaxRequests := 0 |})
       testRequest AuthTypePAT).1 !! AuthHeader
  = Some ["Bearer tok"].
Proof.
  destruct (addAuthHeaders_frame
              (NewDiscogsClient {| AppName := "app"; ConsumerKey := None;
                                   ConsumerSecret := None;
                                   AccessToken := Some "tok";
                                   MaxRequests := 0 |})
              testRequest AuthTypePAT)
    as (_ & _ & _ & _ & _ & Hbearer).
  apply (Hbearer "tok"); [right |]; reflexivity.
Defined.

(** ** Request pipeline *)

Section PipelineFurther.

Variable R : Runtime.

Lemma Do_Wait_failed (ctx : context_Context R) (req : http.Request)
    (res : option (Slot R)) (w : World) (err : error) :
  Limiter_Wait R (rateLimiter (client w)) ctx = Some err →
  Do R ctx req res w
  = ((Some err, res), {| client := client w; trace := trace w ++ [EvWait] |}).
Proof. intros Hwait. unfold Do. run_M. by rewrite Hwait. Qed.

Lemma Do_exchange_failed (ctx : context_Context R) (req : http.Request)
    (res : option (Slot R)) (w : World) (err : error) :
  Limiter_Wait R (rateLimiter (client w)) ctx = None →
  Client_Do R req = inr err →
  Do R ctx req res w
  = ((Some (Errorf "request failed: %w" err), res),
     {| client := client w; trace := trace w ++ [EvWait; EvClientDo req] |}).
Proof.
  intros Hwait Hdo. unfold Do. run_M. rewrite Hwait, Hdo. simpl.
  by rewrite <- (assoc_L (++)).
Qed.

Lemma Do_read_failed (ctx : context_Context R) (req : http.Request)
    (res : option (Slot R)) (w : World) (response : http.Response) (err : error) :
  Limiter_Wait R (rateLimiter (client w)) ctx = None →
  Client_Do R req = inl response →
  http.failure (http.Body response) = Some err →
  Do R ctx req res w
  = ((Some (Errorf "failed to read response body: %w" err), res),
     {| client := updateRateLimitFromHeader (client w) response;
        trace := trace w ++ [EvWait; EvClientDo req] |}).
Proof.
  intros Hwait Hdo Hread. unfold Do. run_M. rewrite Hwait, Hdo.
  unfold io_ReadAll. rewrite Hread. simpl. by rewrite <- (assoc_L (++)).
Qed.

(** The calls of one run of [Do], and what it leaves of the client. *)
Lemma Do_effects (ctx : context_Context R) (req : http.Request)
    (res : option (Slot R)) (w : World) :
  ∃ evs,
    trace (Do R ctx req res w).2 = (trace w ++ evs)%list
    ∧ (evs = [EvWait] ∨ evs = [EvWait; EvClientDo req]
       ∨ ∃ data, evs = [EvWait; EvClientDo req; EvUnmarshal data])
    ∧ Config (client (Do R ctx req res w).2) = Config (client w)
    ∧ Host (client (Do R ctx req res w).2) = Host (client w)
    ∧ (is_Some res → is_Some (Do R ctx req res w).1.2).
Proof.
  destruct (Limiter_Wait R (rateLimiter (client w)) ctx) as [err|] eqn:Hwait.
  { rewrite (Do_Wait_failed ctx req res w err Hwait). simpl.
    exists [EvWait]. repeat split; try done. by left. }
  destruct (Client_Do R req) as [response | err] eqn:Hdo.
  2: { rewrite (Do_exchange_failed ctx req res w err Hwait Hdo). simpl.
       exists [EvWait; EvClientDo req]. repeat split; try done. by right; left. }
  destruct (updateRateLimitFromHeader_Config (client w) response) as [HC HH].
  destruct (http.failure (http.Body response)) as [err|] eqn:Hread.
  { rewrite (Do_read_failed ctx req res w response err Hwait Hdo Hread). simpl.
    exists [EvWait; EvClientDo req]. repeat split; try done. by right; left. }
  rewrite (Do_received R ctx req res w response Hwait Hdo Hread). simpl.
  destruct (_ || _); simpl.
  { exists [EvWait; EvClientDo req]. repeat split; try done. by right; left. }
  destruct res as [slot|]; simpl.
  2: { exists [EvWait; EvClientDo req]. repeat split; try done. by right; left. }
  destruct (0 <? _)%nat; simpl.
  2: { exists [EvWait; EvClientDo req]. repeat split; try done. by right; left. }
  exists [EvWait; EvClientDo req; EvUnmarshal (http.content (http.Body response))].
  destruct (json_Unmarshal R _ slot) as [slot' [err|]]; simpl;
    rewrite <- (assoc_L (++)); simpl; repeat split; try done;
    by right; right; eexists.
Qed.

(** The ways through [request]. *)
Lemma request_cases (ctx : context_Context R) (method endpoint : string)
    (params : option url.Values) (headers : option (gmap string string))
    (body : option (Payload R)) (res : option (Slot R)) (w : World) :
  ((∀ req, ¬ constructs R (client w) ctx method endpoint params body req)
   ∧ ∃ err, request R ctx method endpoint params headers body res w
            = ((Some err, res), w))
  ∨ ∃ req,
      constructs R (client w) ctx method endpoint params body req
      ∧ match matchRoute_range endpoint (range_routes R EndpointAuthMap) with
        | (_, Some err) =>
            request R ctx method endpoint params headers body res w
            = ((Some err, res), w)
        | (authType, None) =>
            match addAuthHeaders (client w)
                    (prepared R (client w) headers req) authType with
            | (_, Some err) =>
                request R ctx method endpoint params headers body res w
                = ((Some err, res), w)
            | (req', None) =>
                request R ctx method endpoint params headers body res w
                = Do R ctx req' res w
            end
        end.
Proof.
  unfold request, constructs, prepared. run_M.
  destruct (url_Parse R (Host (client w) +:+ endpoint)) as [baseURL | err]
    eqn:Hparse.
  2: { left. split; [| by eexists]. by intros req (? & ? & [=] & _). }
  destruct body as [b|].
  - destruct (json_Marshal R b) as [encoded | err] eqn:Hmarshal.
    2: { left. split; [| by eexists].
         intros req (? & ? & _ & (? & [=] & _) & _). }
    destruct (http_NewRequestWithContext R ctx method _ (Some encoded))
      as [req | err] eqn:Hnew.
    2: { left. split; [| by eexists].
         intros req (? & ? & [= <-] & (? & [= <-] & ->) & Hreq). congruence. }
    right. exists req. split.
    { exists baseURL, (Some encoded). split; [done |]. split; [by eexists | done]. }
    destruct (matchRoute_range _ _) as [authType [err|]]; [done |].
    by destruct (addAuthHeaders _ _ _) as [req' [err|]].
  - destruct (http_NewRequestWithContext R ctx method _ None)
      as [req | err] eqn:Hnew.
    2: { left. split; [| by eexists].
         intros req (? & ? & [= <-] & -> & Hreq). congruence. }
    right. exists req. split.
    { by exists baseURL, None. }
    destruct (matchRoute_range _ _) as [authType [err|]]; [done |].
    by destruct (addAuthHeaders _ _ _) as [req' [err|]].
Qed.

Lemma prepared_UserAgent (dc : DiscogsClient)
    (headers : option (gmap string string)) (req : http.Request) :
  http.RequestHeader (prepared R dc headers req) !! UserAgentHeader
  = Some [AppName (Config dc)].
Proof. unfold prepared. simpl. apply Header_Set_same. Qed.

Lemma exchanges_app (evs1 evs2 : list Event) :
  exchanges (evs1 ++ evs2) = (exchanges evs1 ++ exchanges evs2)%list.
Proof.
  induction evs1 as [|[| req | data] evs1 IH]; simpl; [done | done | | done].
  by rewrite IH.
Qed.

Lemma addAuthHeaders_other_headers (dc : DiscogsClient) (req : http.Request)
    (authType : AuthType) (key : string) :
  key ≠ AuthHeader →
  http.RequestHeader (addAuthHeaders dc req authType).1 !! key
  = http.RequestHeader req !! key.
Proof.
  intros Hkey. unfold addAuthHeaders.
  destruct (String.eqb authType AuthTypeNone); [done |].
  destruct (String.eqb authType AuthTypeKeySecret).
  { destruct (ConsumerKey (Config dc)), (ConsumerSecret (Config dc)); simpl;
      try done; by apply Header_Set_other. }
  destruct (_ || _); [| done].
  destruct (AccessToken (Config dc)); simpl; [by apply Header_Set_other | done].
Qed.

(** X13. When the limiter refuses the token (the context was cancelled, or
    the wait cannot be met), [Do] returns the limiter's error as it is and
    goes no further: no request reaches the transport, and the client and
    the output slot are as they were. *)
Theorem Do_no_exchange_without_token (ctx : context_Context R)
    (req : http.Request) (res : option (Slot R)) (w : World) (err : error) :
  Limiter_Wait R (rateLimiter (client w)) ctx = Some err →
  (Do R ctx req res w).1 = (Some err, res)
  ∧ client (Do R ctx req res w).2 = client w
  ∧ exchanges (trace (Do R ctx req res w).2) = exchanges (trace w).
Proof.
  intros Hwait. rewrite (Do_Wait_failed ctx req res w err Hwait). simpl.
  repeat split. rewrite exchanges_app. simpl. by rewrite app_nil_r.
Qed.

(** X14. A failure of the transport and a failure while the body is read
    both come back wrapped ([request failed: ...],
    [failed to read response body: ...]), never as an [HTTPError], also
    when the status code of the response is not 2xx; the output slot is as
    it was. After a failure of the transport the limiter is as it was; a
    response whose body cannot be read has updated it already. *)
Theorem Do_wraps_failures (ctx : context_Context R) (req : http.Request)
    (res : option (Slot R)) (w : World) :
  Limiter_Wait R (rateLimiter (client w)) ctx = None →
  (∀ err,
     Client_Do R req = inr err →
     (Do R ctx req res w).1 = (Some (Errorf "request failed: %w" err), res)
     ∧ client (Do R ctx req res w).2 = client w)
  ∧ (∀ response err,
       Client_Do R req = inl response →
       http.failure (http.Body response) = Some err →
       (Do R ctx req res w).1
       = (Some (Errorf "failed to read response body: %w" err), res)
       ∧ client (Do R ctx req res w).2
         = updateRateLimitFromHeader (client w) response).
Proof.
  intros Hwait. split.
  - intros err Hdo. by rewrite (Do_exchange_failed ctx req res w err Hwait Hdo).
  - intros response err Hdo Hread.
    by rewrite (Do_read_failed ctx req res w response err Hwait Hdo Hread).
Qed.

(** X15. [Do] returns nil only for a response with a 2xx status code: the
    limiter has given a token, the transport has returned a response, its
    body has been read to the end, and its status code is in 200..299. *)
Theorem Do_nil_only_2xx (ctx : context_Context R) (req : http.Request)
    (res : option (Slot R)) (w : World) :
  (Do R ctx req res w).1.1 = None →
  Limiter_Wait R (rateLimiter (client w)) ctx = None
  ∧ ∃ response,
      Client_Do R req = inl response
      ∧ http.failure (http.Body response) = None
      ∧ 200 <= http.StatusCode response <= 299.
Proof.
  destruct (Limiter_Wait R (rateLimiter (client w)) ctx) as [err|] eqn:Hwait.
  { by rewrite (Do_Wait_failed ctx req res w err Hwait). }
  destruct (Client_Do R req) as [response | err] eqn:Hdo.
  2: { by rewrite (Do_exchange_failed ctx req res w err Hwait Hdo). }
  destruct (http.failure (http.Body response)) as [err|] eqn:Hread.
  { by rewrite (Do_read_failed ctx req res w response err Hwait Hdo Hread). }
  rewrite (Do_received R ctx req res w response Hwait Hdo Hread). simpl.
  destruct (Z.ltb_spec (http.StatusCode response) 200);
    destruct (Z.leb_spec 300 (http.StatusCode response)); simpl; try done.
  intros _. split; [done |]. exists response. repeat split; [done | lia | lia].
Qed.


(** X17. Every request that [request] hands to the transport is the one it
    constructed for the call, with the caller's headers, then the
    application name, then the authentication of the class the route
    resolved to: it carries the application name of the configuration as
    its one User-Agent value, whatever the caller's headers say. *)
Theorem request_exchanged_request (ctx : context_Context R)
    (method endpoint : string) (params : option url.Values)
    (headers : option (gmap string string)) (body : option (Payload R))
    (res : option (Slot R)) (w : World) (evs : list Event) (sent : http.Request) :
  trace (request R ctx method endpoint params headers body res w).2
  = (trace w ++ evs)%list →
  sent ∈ exchanges evs →
  (∃ req authType,
     constructs R (client w) ctx method endpoint params body req
     ∧ matchRoute_range endpoint (range_routes R EndpointAuthMap)
       = (authType, None)
     ∧ addAuthHeaders (client w) (prepared R (client w) headers req) authType
       = (sent, None))
  ∧ http.RequestHeader sent !! UserAgentHeader
    = Some [AppName (Config (client w))].
Proof.
  intros Htrace Hsent.
  assert (∀ err,
            request R ctx method endpoint params headers body res w
            = ((Some err, res), w) → False) as Hearly.
  { intros err Heq. rewrite Heq in Htrace. simpl in Htrace.
    rewrite <- (app_nil_r (trace w)) in Htrace at 1.
    apply app_inv_head in Htrace as <-. by apply elem_of_nil in Hsent. }
  destruct (request_cases ctx method endpoint params headers body res w)
    as [[_ [err Heq]] | (req & Hreq & Hcases)]; [by destruct (Hearly err) |].
  destruct (matchRoute_range endpoint _) as [authType [err|]] eqn:Hroute;
    [by destruct (Hearly err) |].
  destruct (addAuthHeaders _ _ _) as [req' [err|]] eqn:Hauth;
    [by destruct (Hearly err) |].
  rewrite Hcases in Htrace.
  destruct (Do_effects ctx req' res w) as (evs' & Htrace' & Hshape & _).
  rewrite Htrace' in Htrace. apply app_inv_head in Htrace as ->.
  assert (sent = req') as ->.
  { destruct Hshape as [-> | [-> | [data ->]]]; simpl in Hsent.
    - by apply elem_of_nil in Hsent.
    - by apply list_elem_of_singleton in Hsent.
    - by apply list_elem_of_singleton in Hsent. }
  split; [by exists req, authType |].
  replace req' with (addAuthHeaders (client w)
                       (prepared R (client w) headers req) authType).1
    by (by rewrite Hauth).
  rewrite addAuthHeaders_other_headers by done. apply prepared_UserAgent.
Qed.

(** X18. A path that none of the patterns of the route table matches is
    refused before any network call: [request] returns an error and leaves
    the world as it was, and for a request it could construct the error is
    the no-route-matched error with the path. *)
Theorem request_unknown_route (ctx : context_Context R)
    (method endpoint : string) (params : option url.Values)
    (headers : option (gmap string string)) (body : option (Payload R))
    (res : option (Slot R)) (w : World) :
  range_order EndpointAuthMap (range_routes R EndpointAuthMap) →
  (∀ route, is_Some (EndpointAuthMap !! route) → isMatch route endpoint = false) →
  (∃ err, request R ctx method endpoint params headers body res w
          = ((Some err, res), w))
  ∧ (∀ req,
       constructs R (client w) ctx method endpoint params body req →
       request R ctx method endpoint params headers body res w
       = ((Some (ErrMatchNotFound endpoint), res), w)).
Proof.
  intros Horder Hnone.
  assert (matchRoute_range endpoint (range_routes R EndpointAuthMap)
          = (AuthTypeUnknown, Some (ErrMatchNotFound endpoint))) as Hroute.
  { apply matchRoute_range_none. intros route authType Hin. apply Hnone.
    apply (range_order_elem_of EndpointAuthMap) in Hin; [by eexists | done]. }
  destruct (request_cases ctx method endpoint params headers body res w)
    as [[Hnot [err Heq]] | (req & Hreq & Hcases)].
  - split; [by exists err |]. intros req Hreq. by destruct (Hnot req).
  - rewrite Hroute in Hcases. split; [by eexists |]. by intros _ _.
Qed.

End PipelineFurther.

(** ** Call sites *)

Section CallSiteProperties.

Variable R : Runtime.
Variable SearchResponse_zero : Slot R.

Lemma request_slot (ctx : context_Context R) (method endpoint : string)
    (params : option url.Values) (headers : option (gmap string string))
    (body : option (Payload R)) (res : option (Slot R)) (w : World) :
  is_Some res →
  is_Some (request R ctx method endpoint params headers body res w).1.2.
Proof.
  intros Hres.
  destruct (request_cases R ctx method endpoint params headers body res w)
    as [[_ [err ->]] | (req & _ & Hcases)]; [done |].
  destruct (matchRoute_range _ _) as [authType [err|]]; [by rewrite Hcases |].
  destruct (addAuthHeaders _ _ _) as [req' [err|]]; [by rewrite Hcases |].
  rewrite Hcases.
  destruct (Do_effects R ctx req' res w) as (_ & _ & _ & _ & _ & Hslot).
  by apply Hslot.
Qed.

(** X19. [Release] and [Search] return a result or an error, never both and
    never neither: a nil error comes with the decoded response, an error
    with a nil response. *)
Theorem call_sites_result_xor_error (ctx : context_Context R) (releaseID : Z)
    (options : option (Options R)) (w : World) :
  result_xor_error (Release R ctx releaseID options w).1
  ∧ result_xor_error (Search R SearchResponse_zero ctx options w).1.
Proof.
  unfold result_xor_error. split.
  - unfold Release. destruct (query_Values R options) as [params | err];
      [| by right]. run_M.
    pose proof (request_slot ctx http.MethodGet
                  ("/releases/" +:+ strconv_FormatInt releaseID) (Some params)
                  None None (Some (ReleaseResponse_zero R)) w
                  (ltac:(by eexists))) as Hslot.
    unfold Get.
    destruct (request R ctx _ _ _ _ _ _ w) as [[[err|] res'] w']; simpl in *.
    + destruct (as_HTTPError err) as [httpErr|]; [| by right].
      destruct (_ =? _); by right.
    + by left.
  - unfold Search. destruct (query_Values R options) as [params | err];
      [| by right]. run_M.
    pose proof (request_slot ctx http.MethodGet "/database/search" (Some params)
                  None None (Some SearchResponse_zero) w
                  (ltac:(by eexists))) as Hslot.
    unfold Get.
    destruct (request R ctx _ _ _ _ _ _ w) as [[[err|] res'] w']; simpl in *.
    + by right.
    + by left.
Qed.

(** X20. [Search] needs the consumer key and the consumer secret: on a
    configuration without one of them it returns an error and no result,
    and leaves the world as it was (no token is asked for, nothing is
    sent), in whatever order the route table is ranged over. *)
Theorem Search_requires_credentials (ctx : context_Context R)
    (options : option (Options R)) (w : World) :
  range_order EndpointAuthMap (range_routes R EndpointAuthMap) →
  ConsumerKey (Config (client w)) = None
  ∨ ConsumerSecret (Config (client w)) = None →
  ∃ err, Search R SearchResponse_zero ctx options w = ((None, Some err), w).
Proof.
  intros Horder Hmissing. unfold Search.
  destruct (query_Values R options) as [params | err]; [| by eexists]. run_M.
  unfold Get.
  destruct (request_cases R ctx http.MethodGet "/database/search" (Some params)
              None None (Some SearchResponse_zero) w)
    as [[_ [err ->]] | (req & _ & Hcases)]; [by eexists |].
  rewrite (database_search_KeySecret _ Horder) in Hcases.
  rewrite (addAuthHeaders_KeySecret_missing _ _ Hmissing) in Hcases.
  rewrite Hcases. by eexists.
Qed.

(** X21. [Release] needs no credentials: for every release identifier, on
    every configuration and in whatever order the route table is ranged
    over, a call whose options encode and whose request can be constructed
    passes the route matcher and the auth header builder and asks the
    limiter for a token. *)
Theorem Release_needs_no_credentials (ctx : context_Context R) (releaseID : Z)
    (options : option (Options R)) (w : World) (params : url.Values)
    (req : http.Request) :
  range_order EndpointAuthMap (range_routes R EndpointAuthMap) →
  query_Values R options = inl params →
  constructs R (client w) ctx http.MethodGet
    ("/releases/" +:+ strconv_FormatInt releaseID) (Some params) None req →
  ∃ evs,
    trace (Release R ctx releaseID options w).2 = (trace w ++ EvWait :: evs)%list
    ∧ (∀ sent, sent ∈ exchanges evs →
               sent = prepared R (client w) None req).
Proof.
  intros Horder Hvalues Hreq. unfold Release. rewrite Hvalues. run_M.
  unfold Get.
  destruct (request_cases R ctx http.MethodGet
              ("/releases/" +:+ strconv_FormatInt releaseID) (Some params)
              None None (Some (ReleaseResponse_zero R)) w)
    as [[Hnot _] | (req0 & Hreq0 & Hcases)]; [by destruct (Hnot req) |].
  assert (req0 = req) as ->.
  { destruct Hreq as (b & rb & Hb & -> & Hnew),
      Hreq0 as (b0 & rb0 & Hb0 & -> & Hnew0). congruence. }
  rewrite (release_endpoint_AuthTypeNone releaseID _ Horder) in Hcases.
  simpl in Hcases. rewrite Hcases.
  destruct (Do_effects R ctx (prepared R (client w) None req)
              (Some (ReleaseResponse_zero R)) w)
    as (evs & Htrace & Hshape & _).
  destruct (Do R ctx _ _ w) as [[err res'] w'] eqn:HDo. simpl in *.
  assert (∃ rest, evs = EvWait :: rest
                  ∧ ∀ sent, sent ∈ exchanges rest →
                            sent = prepared R (client w) None req)
    as (rest & -> & Hsent).
  { destruct Hshape as [-> | [-> | [data ->]]]; eexists; (split; [done |]);
      simpl; intros sent Hin;
      first [ by apply elem_of_nil in Hin
            | by apply list_elem_of_singleton in Hin ]. }
  exists rest. split; [| done].
  destruct err as [err|]; [| done].
  destruct (as_HTTPError err) as [httpErr|]; [| done].
  by destruct (_ =? _).
Qed.

End CallSiteProperties.

(** ** The texts of the errors *)

Lemma numeral_split (a b r1 r2 : string) (c : ascii) :
  numeral a = true → numeral b = true → numeral_byte c = false →
  a +:+ String c r1 = b +:+ String c r2 → a = b ∧ r1 = r2.
Proof.
  intros Ha Hb Hc. revert b Hb.
  induction a as [|x a IH]; intros [|y b] Hb; simpl in *.
  - by intros [= ->].
  - intros [= -> _]. apply andb_true_iff in Hb as [Hy _]. congruence.
  - intros [= -> _]. apply andb_true_iff in Ha as [Hx _]. congruence.
  - intros [= -> Heq].
    apply andb_true_iff in Ha as [_ Ha]. apply andb_true_iff in Hb as [_ Hb].
    destruct (IH Ha b Hb Heq) as [-> ->]. done.
Qed.

(** X22. The text of an [HTTPError], [HTTP <code>: <message>], determines
    the error: two HTTP errors with the same text have the same status code
    and the same message, so comparing the texts, as the tests of the
    package do, compares the errors. *)
Theorem HTTPError_Error_inj (e1 e2 : HTTPError) :
  HTTPError_Error e1 = HTTPError_Error e2 → e1 = e2.
Proof.
  destruct e1 as [c1 m1], e2 as [c2 m2]. unfold HTTPError_Error. simpl.
  intros [= Heq].
  apply (numeral_split _ _ _ _ ":") in Heq as [Hcode [= ->]];
    [| apply FormatInt_numeral | apply FormatInt_numeral | done].
  apply (inj pretty) in Hcode as ->. done.
Qed.

Lemma HTTPError_Error_inj_witness :
  {| StatusCode := 404; Message := "Release not found." |}
  = {| StatusCode := 404; Message := "Release not found." |}.
Proof.
  apply (HTTPError_Error_inj
           {| StatusCode := 404; Message := "Release not found." |}
           {| StatusCode := 404; Message := "Release not found." |}).
  reflexivity.
Defined.

(** X23. The text of a release-not-found error,
    [Release ID <id> not found: <message>], holds the identifier and the
    message of the embedded HTTP error and nothing else: two such errors
    have the same text exactly when they agree on both, whatever their
    status codes. *)
Theorem ErrReleaseNotFound_Error_determines (id1 id2 : Z) (e1 e2 : HTTPError) :
  ErrReleaseNotFound_Error id1 e1 = ErrReleaseNotFound_Error id2 e2
  ↔ id1 = id2 ∧ Message e1 = Message e2.
Proof.
  unfold ErrReleaseNotFound_Error. split.
  - simpl. intros [= Heq].
    apply (numeral_split _ _ _ _ " ") in Heq as [Hid [= Hm]];
      [| apply FormatInt_numeral | apply FormatInt_numeral | done].
    by apply (inj pretty) in Hid as ->.
  - by intros [-> ->].
Qed.

(** ** The further theorems at concrete inputs *)

Lemma Do_no_exchange_without_token_witness :
  (Do (cancelledRuntime (inr (ErrLib "transport invoked"))) tt testRequest
     (Some "before") (testClient noCredentials)).1
  = (Some (ErrLib "context canceled"), Some "before")
  ∧ client (Do (cancelledRuntime (inr (ErrLib "transport invoked"))) tt
              testRequest (Some "before") (testClient noCredentials)).2
    = client (testClient noCredentials)
  ∧ exchanges (trace (Do (cancelledRuntime (inr (ErrLib "transport invoked")))
                        tt testRequest (Some "before")
                        (testClient noCredentials)).2)
    = exchanges (trace (testClient noCredentials)).
Proof.
  apply (Do_no_exchange_without_token
           (cancelledRuntime (inr (ErrLib "transport invoked"))) tt testRequest
           (Some "before") (testClient noCredentials)
           (ErrLib "context canceled")).
  reflexivity.
Defined.

Lemma Do_wraps_failures_witness :
  (Do (testRuntime (inr (ErrLib "connection refused"))) tt testRequest
     (Some "before") (testClient noCredentials)).1
  = (Some (Errorf "request failed: %w" (ErrLib "connection refused")),
     Some "before")
  ∧ client (Do (testRuntime (inr (ErrLib "connection refused"))) tt testRequest
              (Some "before") (testClient noCredentials)).2
    = client (testClient noCredentials).
Proof.
  destruct (Do_wraps_failures (testRuntime (inr (ErrLib "connection refused")))
              tt testRequest (Some "before") (testClient noCredentials) eq_refl)
    as [Htransport _].
  apply Htransport. reflexivity.
Defined.

Lemma Do_nil_only_2xx_witness :
  ∃ response,
    Client_Do (testRuntime (inl (testResponse 204 None EmptyString))) testRequest
    = inl response
    ∧ http.failure (http.Body response) = None
    ∧ 200 <= http.StatusCode response <= 299.
Proof.
  apply (proj2 (Do_nil_only_2xx
                  (testRuntime (inl (testResponse 204 None EmptyString)))
                  tt testRequest None (testClient noCredentials) eq_refl)).
Defined.

Lemma request_exchanged_request_witness :
  testSent
  ∈ exchanges
      (trace (Get (testRuntime (inl (testResponse 200 None "{}"))) tt "/test"
                None (Some {[ "User-Agent" := "mine" ]}) (Some EmptyString)
                (testClient noCredentials)).2)
  ∧ http.RequestHeader testSent !! UserAgentHeader = Some ["DiscogsGo/0.1"].
Proof.
  assert (testSent
          ∈ exchanges
              (trace (Get (testRuntime (inl (testResponse 200 None "{}"))) tt
                        "/test" None (Some {[ "User-Agent" := "mine" ]})
                        (Some EmptyString) (testClient noCredentials)).2))
    as Hsent.
  { vm_compute. left. }
  split; [exact Hsent |].
  apply (request_exchanged_request
           (testRuntime (inl (testResponse 200 None "{}"))) tt http.MethodGet
           "/test" None (Some {[ "User-Agent" := "mine" ]}) None
           (Some EmptyString) (testClient noCredentials)
           (trace (Get (testRuntime (inl (testResponse 200 None "{}"))) tt
                     "/test" None (Some {[ "User-Agent" := "mine" ]})
                     (Some EmptyString) (testClient noCredentials)).2)
           testSent).
  - vm_compute. reflexivity.
  - exact Hsent.
Defined.

Lemma EndpointAuthMap_no_artists (route : string) :
  is_Some (EndpointAuthMap !! route) → isMatch route "/artists/1" = false.
Proof.
  intros [authType Hin].
  by apply EndpointAuthMap_entries in Hin as [[-> ->] | [[-> ->] | [-> ->]]].
Qed.

Lemma request_unknown_route_witness :
  Get (testRuntime (inr (ErrLib "transport invoked"))) tt "/artists/1" None None
    None (testClient noCredentials)
  = ((Some (ErrMatchNotFound "/artists/1"), None), testClient noCredentials).
Proof.
  apply (proj2 (request_unknown_route
                  (testRuntime (inr (ErrLib "transport invoked"))) tt
                  http.MethodGet "/artists/1" None None None None
                  (testClient noCredentials)
                  (reflexivity _) EndpointAuthMap_no_artists)
           {| http.Method := http.MethodGet;
              http.URL := {| url.Scheme := "http"; url.Host := "127.0.0.1:8080";
                             url.Path := "/artists/1";
                             url.RawQuery := EmptyString |};
              http.RequestHeader := ∅; http.RequestBody := None |}).
  eexists _, _. split; [reflexivity |]. split; reflexivity.
Defined.

Lemma Search_requires_credentials_witness :
  ∃ err,
    Search (testRuntime (inr (ErrLib "transport invoked"))) EmptyString tt None
      (testClient noCredentials)
    = ((None, Some err), testClient noCredentials).
Proof.
  apply (Search_requires_credentials
           (testRuntime (inr (ErrLib "transport invoked"))) EmptyString tt None
           (testClient noCredentials) (reflexivity _) (or_introl eq_refl)).
Defined.

Lemma Release_needs_no_credentials_witness :
  ∃ evs,
    trace (Release (testRuntime (inl (testResponse 200 None "{}"))) tt 2 None
             (testClient noCredentials)).2
    = (trace (testClient noCredentials) ++ EvWait :: evs)%list
    ∧ ∀ sent,
        sent ∈ exchanges evs →
        sent = prepared (testRuntime (inl (testResponse 200 None "{}")))
                 (client (testClient noCredentials)) None
                 {| http.Method := http.MethodGet;
                    http.URL := {| url.Scheme := "http";
                                   url.Host := "127.0.0.1:8080";
                                   url.Path := "/releases/2";
                                   url.RawQuery := EmptyString |};
                    http.RequestHeader := ∅; http.RequestBody := None |}.
Proof.
  apply (Release_needs_no_credentials
           (testRuntime (inl (testResponse 200 None "{}"))) tt 2 None
           (testClient noCredentials) ∅).
  - unfold range_order. reflexivity.
  - reflexivity.
  - eexists _, _. split; [reflexivity |]. split; reflexivity.
Defined.

(** ** The limiter across calls *)

Section Sessions.

Variable R : Runtime.

Lemma Do_client (ctx : context_Context R) (req : http.Request)
    (res : option (Slot R)) (w : World) :
  client (Do R ctx req res w).2 = client w
  ∨ ∃ response,
      Client_Do R req = inl response
      ∧ client (Do R ctx req res w).2
        = updateRateLimitFromHeader (client w) response.
Proof.
  destruct (Limiter_Wait R (rateLimiter (client w)) ctx) as [err|] eqn:Hwait.
  { left. by rewrite (Do_Wait_failed R ctx req res w err Hwait). }
  destruct (Client_Do R req) as [response | err] eqn:Hdo.
  2: { left. by rewrite (Do_exchange_failed R ctx req res w err Hwait Hdo). }
  right. exists response. split; [done |].
  destruct (http.failure (http.Body response)) as [err|] eqn:Hread.
  { by rewrite (Do_read_failed R ctx req res w response err Hwait Hdo Hread). }
  rewrite (Do_received R ctx req res w response Hwait Hdo Hread). simpl.
  destruct (_ || _); [done |].
  destruct res as [slot|]; [| done].
  destruct (0 <? _)%nat; [| done].
  by destruct (json_Unmarshal R _ slot) as [slot' [err|]].
Qed.

(** X24. The limiter's invariant survives every call: on a client a program
    can hold, whatever the call and whatever the server answers, the client
    [request] leaves behind is again one a program can hold, so its burst
    is not zero, its rate is derived from its burst and a configured
    ceiling bounds the burst. *)
Theorem request_preserves_reachable (ctx : context_Context R)
    (method endpoint : string) (params : option url.Values)
    (headers : option (gmap string string)) (body : option (Payload R))
    (res : option (Slot R)) (w : World) :
  reachable (client w) →
  let dc' := client (request R ctx method endpoint params headers body res w).2 in
  reachable dc'
  ∧ Burst dc' ≠ 0
  ∧ Limit dc' = perMinute (Burst dc')
  ∧ (0 < MaxRequests (Config dc') → Burst dc' <= MaxRequests (Config dc')).
Proof.
  intros Hw. simpl.
  assert (reachable
            (client (request R ctx method endpoint params headers body res w).2))
    as Hreach.
  { destruct (request_cases R ctx method endpoint params headers body res w)
      as [[_ [err ->]] | (req & _ & Hcases)]; [done |].
    destruct (matchRoute_range _ _) as [authType [err|]]; [by rewrite Hcases |].
    destruct (addAuthHeaders _ _ _) as [req' [err|]]; [by rewrite Hcases |].
    rewrite Hcases.
    destruct (Do_client ctx req' res w) as [-> | (response & _ & ->)];
      [done | by apply reachable_update]. }
  split; [done |].
  destruct (reachable_limit_nonzero _ Hreach) as [Hne Hlimit].
  split; [done | split; [done |]]. by apply reachable_Burst_le.
Qed.

End Sessions.

Lemma request_preserves_reachable_witness :
  Burst (client (Get (testRuntime (inl (testResponse 429 (Some "5") "slow down")))
                   tt "/test" None None None (testClient noCredentials)).2)
  ≠ 0.
Proof.
  apply (request_preserves_reachable
           (testRuntime (inl (testResponse 429 (Some "5") "slow down")))
           tt http.MethodGet "/test" None None None None
           (testClient noCredentials)).
  apply (reachable_Host (NewDiscogsClient noCredentials) testHost).
  apply reachable_New.
Defined.
